(** * SHAPSexismAnalyzer: a shallow embedding of [sexismanalyzer.py]

    The module matches a text against per-language keyword lists, gives
    every matched keyword a random score, selects the best scored
    keywords under a cumulative threshold and marks them in the text.

    Conventions of the embedding.
    - A Python [str] is a list of Unicode code points ([list N]); [len]
      is [length].
    - A Python exception is a value of [exn]; a function that may raise
      returns a [result].
    - The dict [token_scores] is an association list in insertion order;
      assigning to a key that is present replaces the value in place.
    - A score is a rational number, and the sum, the quotient and the
      comparisons of the selection loop are exact: the rounding of
      binary floating point is not modelled.
    - The random source and the pieces of the Unicode character database
      that [str.lower] and the [re] module consult are parameters of the
      model. *)

From Stdlib Require Import String Ascii.
From Stdlib Require Import List Bool Arith NArith ZArith QArith Lia Lqa.
From Stdlib Require Import Sorting.Permutation Sorting.Sorted.
Import ListNotations.
Open Scope nat_scope.

(** ** Strings *)

Definition char := N.
Definition str := list char.

(** An ASCII literal as a [str]. *)
Definition py (s : string) : str := map N_of_ascii (list_ascii_of_string s).

Fixpoint str_eqb (s t : str) : bool :=
  match s, t with
  | [], [] => true
  | a :: s', b :: t' => N.eqb a b && str_eqb s' t'
  | _, _ => false
  end.

(** [p] is a prefix of [s]. *)
Fixpoint starts_with (p s : str) : bool :=
  match p, s with
  | [], _ => true
  | a :: p', b :: s' => N.eqb a b && starts_with p' s'
  | _ :: _, [] => false
  end.

(** [sub in s] on Python strings: substring containment. *)
Fixpoint contains (sub s : str) : bool :=
  starts_with sub s ||
  match s with
  | [] => false
  | _ :: s' => contains sub s'
  end.

Definition in_range (lo hi c : N) : bool := N.leb lo c && N.leb c hi.

Definition is_ascii (c : char) : bool := N.ltb c 128.
Definition is_ascii_upper (c : char) : bool := in_range 65 90 c.
Definition is_ascii_lower (c : char) : bool := in_range 97 122 c.
(** The character class [[a-zA-Z]]. *)
Definition is_ascii_letter (c : char) : bool := is_ascii_upper c || is_ascii_lower c.
Definition is_ascii_digit (c : char) : bool := in_range 48 57 c.

(** Lowercasing within Basic Latin: A-Z go to a-z, the rest stays. *)
Definition ascii_lower (c : char) : char :=
  if is_ascii_upper c then (c + 32)%N else c.

(** The Lu (uppercase letter) code points below 256: A-Z, and the
    Latin-1 letters U+00C0-U+00DE without the multiplication sign. *)
Definition is_upper_latin1 (c : char) : bool :=
  is_ascii_upper c || in_range 192 214 c || in_range 216 222 c.

(** [str.isspace] on one code point: the whitespace of the Unicode
    character database, which [str.split()] separates words at. *)
Definition isspace (c : char) : bool :=
  in_range 9 13 c || in_range 28 32 c || N.eqb c 133 || N.eqb c 160 ||
  N.eqb c 5760 || in_range 8192 8202 c || N.eqb c 8232 || N.eqb c 8233 ||
  N.eqb c 8239 || N.eqb c 8287 || N.eqb c 12288.

(** [s.split()]: the maximal runs of non-whitespace, in order.  [cur]
    holds the characters of the word being read. *)
Fixpoint split_from (cur : str) (s : str) : list str :=
  match s with
  | [] => match cur with [] => [] | _ => [cur] end
  | c :: s' =>
      if isspace c
      then match cur with [] => split_from [] s' | _ => cur :: split_from [] s' end
      else split_from (cur ++ [c]) s'
  end.

Definition split (s : str) : list str := split_from [] s.

(** ** Exceptions *)

Inductive exn :=
| KeyError (key : str)   (* a subscript on a dict that lacks the key *)
| TemplateError.         (* [re.sub] cannot compile its replacement template:
                            [re.error], or [IndexError] for a group name *)

Inductive result (A : Type) :=
| Ok (a : A)
| Raise (e : exn).
Arguments Ok {A} a.
Arguments Raise {A} e.

Definition bind {A B} (r : result A) (k : A -> result B) : result B :=
  match r with
  | Ok a => k a
  | Raise e => Raise e
  end.

Notation "x <- r ;; k" := (bind r (fun x => k))
  (at level 61, r at next level, right associativity).

(** ** The keyword table built by [__init__] *)

Record lang_tokens := {
  high_importance : list str;
  medium_importance : list str;
  sexist_indicators : list str
}.

Definition en_tokens : lang_tokens := {|
  high_importance := map py
    ["slut"; "women"; "girls"; "fem"; "wife"; "scholar"; "woman";
     "onde"; "ches"; "teaching"; "stitute"; "pregnant"; "gang";
     "men"; "biggest"; "bl"; "girl"; "bit"; "pen"; "financial"]%string;
  medium_importance := map py
    ["feminist"; "periods"; "pro"; "her"; "ok"; "she"; "boys";
     "ti"; "like"; "mbo"; "ips"; "ts"; "coverage"; "really";
     "wife"; "dies"; "finger"; "trophy"; "dressed"]%string;
  sexist_indicators := map py
    ["kitchen"; "belong"; "emotional"; "weak"; "stupid"; "makeup";
     "dress"; "hysteric"; "irrational"; "shopping"; "gossip";
     "moody"; "sensitive"; "drivers"; "protect"]%string
|}.

(** The three letters outside ASCII that the Spanish lists use. *)
Definition n_tilde : char := 241%N.  (* U+00F1 *)
Definition e_acute : char := 233%N.  (* U+00E9 *)
Definition u_acute : char := 250%N.  (* U+00FA *)

Definition es_tokens : lang_tokens := {|
  high_importance :=
    map py ["nar"; "masculino"; "prend"; "mach"; "zo"; "mujeres"; "mans"]%string ++
    [py "se" ++ [n_tilde] ++ py "or"] ++
    map py ["feminist"; "mujer"; "lab"; "vas"; "hombre"; "mach";
            "dama"; "tu"; "bia"; "od"; "sexual"; "fem"]%string;
  medium_importance :=
    map py ["femenino"; "doctor"; "princesa"; "nen"; "masculin"; "mujeres"]%string ++
    [py "ni" ++ [n_tilde] ++ py "a"] ++
    map py ["bella"; "ton"]%string ++
    [py "ni" ++ [n_tilde] ++ py "os"] ++
    map py ["ment"; "novi"; "apa"; "ones"; "ios"; "var"; "novia"; "bian"; "golf"]%string;
  sexist_indicators :=
    map py ["cocina"; "emocionales"]%string ++
    [py "d" ++ [e_acute] ++ py "bil"; py "est" ++ [u_acute] ++ py "pida"] ++
    map py ["maquillaje"]%string ++
    [py "hist" ++ [e_acute] ++ py "rica"] ++
    map py ["irracional"; "compras"; "sensibles"; "conductoras";
            "proteger"; "servir"; "natural"; "amargadas"]%string
|}.

(** [self.important_tokens]: a dict with the two keys 'en' and 'es'. *)
Definition important_tokens : list (str * lang_tokens) :=
  [(py "en", en_tokens); (py "es", es_tokens)].

(** [d[key]] on a dict: the value, or [KeyError]. *)
Fixpoint subscript {V} (d : list (str * V)) (key : str) : result V :=
  match d with
  | [] => Raise (KeyError key)
  | (k, v) :: d' => if str_eqb key k then Ok v else subscript d' key
  end.

(** ** The dict [token_scores] *)

Definition dict := list (str * Q).

(** [k in d]. *)
Fixpoint dict_mem (k : str) (d : dict) : bool :=
  match d with
  | [] => false
  | (k', _) :: d' => str_eqb k k' || dict_mem k d'
  end.

(** [d[k] = v]: a present key keeps its place and gets the new value, a
    new key goes to the end. *)
Fixpoint dict_set (k : str) (v : Q) (d : dict) : dict :=
  match d with
  | [] => [(k, v)]
  | (k', v') :: d' =>
      if str_eqb k k' then (k', v) :: d' else (k', v') :: dict_set k v d'
  end.

Fixpoint dict_get (k : str) (d : dict) : option Q :=
  match d with
  | [] => None
  | (k', v) :: d' => if str_eqb k k' then Some v else dict_get k d'
  end.

Definition keys (d : dict) : list str := map fst d.

(** ** Sorting *)

(** [sorted(l, key=..., reverse=True)] is a stable descending sort:
    elements with equal keys keep their order.  [key_le y x] reads
    "the key of [y] is at most the key of [x]"; an element is inserted
    in front of the first element whose key is not greater. *)
Section Sorted.
Context {A : Type} (key_le : A -> A -> bool).

Fixpoint insert_desc (x : A) (l : list A) : list A :=
  match l with
  | [] => [x]
  | y :: l' => if key_le y x then x :: y :: l' else y :: insert_desc x l'
  end.

Definition sorted_desc (l : list A) : list A := fold_right insert_desc [] l.

End Sorted.

Definition Qlt_bool (x y : Q) : bool := negb (Qle_bool y x).

Definition score_le (x y : str * Q) : bool := Qle_bool (snd x) (snd y).
Definition len_le (x y : str) : bool := Nat.leb (length x) (length y).

(** ** get_important_tokens *)

Section Analyzer.

(** [text.lower()], from the Unicode character database. *)
Variable lower : str -> str.

(** [uniform n lo hi] is the value the [n]-th call of the run to
    [np.random.uniform] returns when that call is [uniform(lo, hi)]. *)
Variable uniform : nat -> Q -> Q -> Q.

(** The state of the scoring loops: the dict and the number of random
    draws made so far. *)
Definition scoring := (dict * nat)%type.

(** [token_scores[token] = np.random.uniform(lo, hi)]. *)
Definition assign_score (lo hi : Q) (st : scoring) (token : str) : scoring :=
  (dict_set token (uniform (snd st) lo hi) (fst st), S (snd st)).

(** The body of the loop over [high_importance]. *)
Definition score_high (text_lower : str) (st : scoring) (token : str) : scoring :=
  if contains token text_lower
  then assign_score 0.8%Q 1.0%Q st token
  else st.

(** The body of the loops over [medium_importance] and
    [sexist_indicators], which skip a token that has a score. *)
Definition score_unscored (lo hi : Q) (text_lower : str) (st : scoring) (token : str)
  : scoring :=
  if contains token text_lower && negb (dict_mem token (fst st))
  then assign_score lo hi st token
  else st.

(** [re.sub(r'[^a-zA-Z]', '', word)]. *)
Definition clean (word : str) : str := filter is_ascii_letter word.

(** The body of the fallback loop over the first five words. *)
Definition score_word (st : scoring) (word : str) : scoring :=
  let clean_word := clean word in
  if Nat.ltb 2 (length clean_word)
  then assign_score 0.1%Q 0.4%Q st clean_word
  else st.

(** The scores after the loop over [high_importance], after the loop
    over [medium_importance], and after all three keyword loops. *)
Definition high_scores (text_lower : str) (lang : lang_tokens) : scoring :=
  fold_left (score_high text_lower) (high_importance lang) ([], 0).

Definition medium_scores (text_lower : str) (lang : lang_tokens) : scoring :=
  fold_left (score_unscored 0.5%Q 0.8%Q text_lower) (medium_importance lang)
    (high_scores text_lower lang).

Definition keyword_scores (text_lower : str) (lang : lang_tokens) : scoring :=
  fold_left (score_unscored 0.7%Q 0.95%Q text_lower) (sexist_indicators lang)
    (medium_scores text_lower lang).

(** [token_scores] as it stands when the sort begins, with the number of
    draws made. *)
Definition token_scores (text_lower : str) (lang : lang_tokens) : scoring :=
  let st := keyword_scores text_lower lang in
  match fst st with
  | [] => fold_left score_word (firstn 5 (split text_lower)) st
  | _ :: _ => st
  end.

Definition total_importance (sorted_tokens : dict) : Q :=
  fold_left Qplus (map snd sorted_tokens) 0%Q.

(** The selection loop.  [cumulative] and [selected_tokens] are the
    loop's two variables; returning [selected_tokens] is the [break]. *)
Fixpoint select (threshold total : Q) (sorted_tokens : dict)
    (cumulative : Q) (selected_tokens : list str) : list str :=
  match sorted_tokens with
  | [] => selected_tokens
  | (token, score) :: rest =>
      let cumulative :=
        (cumulative + (if Qlt_bool 0 total then score / total else 0))%Q in
      let selected_tokens := selected_tokens ++ [token] in
      if Qle_bool threshold cumulative || Nat.leb 10 (length selected_tokens)
      then selected_tokens
      else select threshold total rest cumulative selected_tokens
  end.

(** Everything after the scoring loops. *)
Definition select_tokens (scores : dict) (threshold : Q) : list str :=
  let sorted_tokens := sorted_desc score_le scores in
  select threshold (total_importance sorted_tokens) sorted_tokens 0%Q [].

Definition default_threshold : Q := 0.95%Q.

Definition get_important_tokens (text language : str) (threshold : Q)
  : result (list str) :=
  let text_lower := lower text in
  lang_tokens <- subscript important_tokens language ;;
  Ok (select_tokens (fst (token_scores text_lower lang_tokens)) threshold).

End Analyzer.

(** ** The [re] module, as far as [highlight_tokens] uses it *)

(** The compiled pattern: [\b] and literal characters.  [re.escape]
    makes every character of the token a literal of the pattern. *)
Inductive re_item :=
| Boundary
| Literal (c : char).

(** [r'\b' + re.escape(token) + r'\b'], compiled. *)
Definition pattern (token : str) : list re_item :=
  [Boundary] ++ map Literal token ++ [Boundary].

Definition backslash : char := 92%N.

(** What the tokenizer of a replacement template reads: one character,
    or a backslash together with the character after it. *)
Inductive tpl_token :=
| Plain (c : char)
| Escape (c : char).

(** A compiled template: literal characters and references to group 0,
    the whole match (the patterns here have no other group). *)
Inductive tpl_item :=
| TLit (c : char)
| TGroup0.

Fixpoint tokenize (s : str) : result (list tpl_token) :=
  match s with
  | [] => Ok []
  | c :: s' =>
      if N.eqb c backslash
      then match s' with
           | [] => Raise TemplateError          (* bad escape (end of pattern) *)
           | d :: s'' => ts <- tokenize s'' ;; Ok (Escape d :: ts)
           end
      else ts <- tokenize s' ;; Ok (Plain c :: ts)
  end.

Definition is_octdigit (c : char) : bool := in_range 48 55 c.
Definition digit_value (c : char) : N := (c - 48)%N.

(** [ESCAPES]: the escapes that stand for one character. *)
Definition escape_char (c : char) : option char :=
  if N.eqb c 97 then Some 7%N            (* \a *)
  else if N.eqb c 98 then Some 8%N       (* \b *)
  else if N.eqb c 102 then Some 12%N     (* \f *)
  else if N.eqb c 110 then Some 10%N     (* \n *)
  else if N.eqb c 114 then Some 13%N     (* \r *)
  else if N.eqb c 116 then Some 9%N      (* \t *)
  else if N.eqb c 118 then Some 11%N     (* \v *)
  else if N.eqb c backslash then Some backslash
  else None.

(** The characters of a token as the tokenizer concatenates them. *)
Definition token_chars (t : tpl_token) : str :=
  match t with
  | Plain c => [c]
  | Escape c => [backslash; c]
  end.

(** The token is the plain character [c]. *)
Definition is_plain (c : char) (t : tpl_token) : bool :=
  match t with
  | Plain d => N.eqb d c
  | Escape _ => false
  end.

(** [getuntil(">")]: the name before the next [>] and what follows it;
    no [>], or an empty name, is an error. *)
Fixpoint getuntil (ts : list tpl_token) : option (str * list tpl_token) :=
  match ts with
  | [] => None
  | t :: ts' =>
      if is_plain 62%N t then Some ([], ts')
      else match getuntil ts' with
           | Some (name, rest) => Some (token_chars t ++ name, rest)
           | None => None
           end
  end.

(** The group a name of [\g<name>] refers to.  A name that is a run of
    ASCII digits is a group number, and 0 is the only group there is;
    any other name is no group of the pattern.  (That is how CPython
    3.12 reads a name; older versions took a few more spellings of a
    number, with a deprecation warning.) *)
Definition group_of_name (name : str) : result tpl_item :=
  match name with
  | [] => Raise TemplateError
  | _ :: _ => if forallb (N.eqb 48) name then Ok TGroup0 else Raise TemplateError
  end.

(** [parse_template], on the tokens.  Every round of the loop takes at
    least one token, so [length ts] rounds are enough; [fuel] counts
    them. *)
Fixpoint parse_tokens (fuel : nat) (ts : list tpl_token) : result (list tpl_item) :=
  match ts, fuel with
  | [], _ => Ok []
  | _ :: _, O => Raise TemplateError
  | Plain c :: ts', S fuel => items <- parse_tokens fuel ts' ;; Ok (TLit c :: items)
  | Escape c :: ts', S fuel =>
      if N.eqb c 103 then                                   (* \g<name> *)
        match ts' with
        | t :: ts'' =>
            if is_plain 60%N t then
              match getuntil ts'' with
              | Some (name, rest) =>
                  g <- group_of_name name ;;
                  items <- parse_tokens fuel rest ;; Ok (g :: items)
              | None => Raise TemplateError                 (* missing > *)
              end
            else Raise TemplateError                        (* missing < *)
        | [] => Raise TemplateError                         (* missing < *)
        end
      else if N.eqb c 48 then                               (* \0, \0o, \0oo *)
        match ts' with
        | Plain d1 :: Plain d2 :: rest =>
            if is_octdigit d1 && is_octdigit d2 then
              items <- parse_tokens fuel rest ;;
              Ok (TLit (N.land (8 * digit_value d1 + digit_value d2) 255) :: items)
            else if is_octdigit d1 then
              items <- parse_tokens fuel (Plain d2 :: rest) ;;
              Ok (TLit (digit_value d1) :: items)
            else items <- parse_tokens fuel ts' ;; Ok (TLit 0%N :: items)
        | Plain d1 :: rest =>
            if is_octdigit d1 then
              items <- parse_tokens fuel rest ;; Ok (TLit (digit_value d1) :: items)
            else items <- parse_tokens fuel ts' ;; Ok (TLit 0%N :: items)
        | _ => items <- parse_tokens fuel ts' ;; Ok (TLit 0%N :: items)
        end
      else if is_ascii_digit c then                         (* \1 .. \9 *)
        match ts' with
        | Plain d1 :: Plain d2 :: rest =>
            if is_ascii_digit d1 && is_octdigit c && is_octdigit d1 && is_octdigit d2 then
              let v := (64 * digit_value c + 8 * digit_value d1 + digit_value d2)%N in
              if N.ltb 255 v then Raise TemplateError       (* outside 0-0o377 *)
              else items <- parse_tokens fuel rest ;; Ok (TLit v :: items)
            else Raise TemplateError                        (* invalid group reference *)
        | _ => Raise TemplateError                          (* invalid group reference *)
        end
      else
        match escape_char c with
        | Some e => items <- parse_tokens fuel ts' ;; Ok (TLit e :: items)
        | None =>
            if is_ascii_letter c then Raise TemplateError   (* bad escape *)
            else items <- parse_tokens fuel ts' ;; Ok (TLit backslash :: TLit c :: items)
        end
  end.

Definition parse_template (repl : str) : result (list tpl_item) :=
  ts <- tokenize repl ;; parse_tokens (length ts) ts.

(** [expand_template]: the replacement for one match. *)
Definition expand (template : list tpl_item) (matched : str) : str :=
  flat_map (fun it => match it with TLit c => [c] | TGroup0 => matched end) template.

Section Highlight.

(** [\w] on one code point, from the Unicode character database. *)
Variable is_word : char -> bool.

(** [ci_match p c]: under [re.IGNORECASE] the pattern's literal [p]
    matches the character [c] of the text. *)
Variable ci_match : char -> char -> bool.

Definition word_at (c : option char) : bool :=
  match c with
  | Some c => is_word c
  | None => false
  end.

(** [\b] between the character [prev] before the position and the text
    [s] from the position on; outside the string counts as no word
    character. *)
Definition at_boundary (prev : option char) (s : str) : bool :=
  xorb (word_at prev) (word_at (hd_error s)).

(** A match of the pattern that starts at the position: the text it
    covers. *)
Fixpoint match_here (items : list re_item) (prev : option char) (s : str)
  : option str :=
  match items with
  | [] => Some []
  | Boundary :: items' =>
      if at_boundary prev s then match_here items' prev s else None
  | Literal p :: items' =>
      match s with
      | c :: s' =>
          if ci_match p c
          then option_map (cons c) (match_here items' (Some c) s')
          else None
      | [] => None
      end
  end.

(** The scan of [re.sub] from a position on: every match found from
    left to right is replaced, the text between matches is copied.
    [skip] counts the characters of the last match still to pass.
    After an empty match the character at the position is copied and
    the search goes on behind it. *)
Fixpoint sub_from (items : list re_item) (template : list tpl_item)
    (prev : option char) (skip : nat) (s : str) : str :=
  match skip with
  | S skip' =>
      match s with
      | [] => []
      | c :: s' => sub_from items template (Some c) skip' s'
      end
  | O =>
      match match_here items prev s with
      | Some m =>
          expand template m ++
          match s with
          | [] => []
          | c :: s' =>
              match m with
              | [] => c :: sub_from items template (Some c) 0 s'
              | _ :: m' => sub_from items template (Some c) (length m') s'
              end
          end
      | None =>
          match s with
          | [] => []
          | c :: s' => c :: sub_from items template (Some c) 0 s'
          end
      end
  end.

(** [re.sub(pattern, repl, s, flags=re.IGNORECASE)]: the template is
    compiled before the scan begins. *)
Definition re_sub (items : list re_item) (repl s : str) : result str :=
  template <- parse_template repl ;;
  Ok (sub_from items template None 0 s).

(** ** highlight_tokens *)

(** [f"**{token}**"]. *)
Definition replacement (token : str) : str := py "**" ++ token ++ py "**".

(** The body of the loop. *)
Definition highlight_token (highlighted_text : str) (token : str) : result str :=
  re_sub (pattern token) (replacement token) highlighted_text.

Fixpoint highlight_loop (sorted_tokens : list str) (highlighted_text : str)
  : result str :=
  match sorted_tokens with
  | [] => Ok highlighted_text
  | token :: rest =>
      highlighted_text <- highlight_token highlighted_text token ;;
      highlight_loop rest highlighted_text
  end.

Definition highlight_tokens (text : str) (important_tokens : list str) : result str :=
  highlight_loop (sorted_desc len_le important_tokens) text.

End Highlight.

(** ** analyze_tweet *)

(** The dict [analyze_tweet] returns, one field per key. *)
Record analysis := {
  original_text : str;
  important_tokens_found : list str;    (* 'important_tokens' *)
  highlighted_text : str;
  language : str;
  num_important_tokens : nat
}.

Section Analyze.
Variable lower : str -> str.
Variable uniform : nat -> Q -> Q -> Q.
Variable is_word : char -> bool.
Variable ci_match : char -> char -> bool.

(** [analyze_tweet] calls [get_important_tokens] with two arguments, so
    with the default threshold. *)
Definition analyze_tweet (text lang : str) : result analysis :=
  tokens <- get_important_tokens lower uniform text lang default_threshold ;;
  highlighted <- highlight_tokens is_word ci_match text tokens ;;
  Ok {| original_text := text;
        important_tokens_found := tokens;
        highlighted_text := highlighted;
        language := lang;
        num_important_tokens := length tokens |}.

End Analyze.

(** ** The character tables on Basic Latin

    On ASCII text the Unicode tables act as follows; these instances
    serve to run the model on ASCII inputs. *)

(** [str.lower] on ASCII text. *)
Definition lower_ascii (s : str) : str := map ascii_lower s.

(** [\w] on ASCII: [[a-zA-Z0-9_]]. *)
Definition is_word_ascii (c : char) : bool :=
  is_ascii_letter c || is_ascii_digit c || N.eqb c 95.

(** Case-insensitive equality of two ASCII characters. *)
Definition ci_match_ascii (p c : char) : bool := N.eqb (ascii_lower p) (ascii_lower c).

(** * The vocabulary of the properties *)

(** The languages the keyword table has. *)
Definition supported (language : str) : Prop :=
  language = py "en" \/ language = py "es".

(** A character below U+0100 that is no uppercase letter. *)
Definition not_upper (c : char) : bool := N.ltb c 256 && negb (is_upper_latin1 c).

(** A string without an uppercase character: all of its characters lie
    below U+0100 and none is an uppercase letter. *)
Definition no_uppercase (s : str) : Prop :=
  forall c, In c s -> (c < 256)%N /\ is_upper_latin1 c = false.

(** The sum of the scores of a dict. *)
Definition score_sum (d : dict) : Q := fold_right Qplus 0%Q (map snd d).

(** Every assignment to [token_scores] takes one draw; each token is
    scored at most once when there are no more draws than entries. *)
Definition scored_at_most_once (st : scoring) : Prop := snd st <= length (fst st).

(** A character other than the backslash. *)
Definition not_backslash (c : char) : bool := negb (N.eqb c backslash).

(** The entries of a list of scored tokens stand in descending order of
    score: no entry has a greater score than one before it. *)
Definition scores_descend (l : dict) : Prop :=
  StronglySorted (fun x y => (snd y <= snd x)%Q) l.

(** All keywords of a language. *)
Definition keywords (lang : lang_tokens) : list str :=
  high_importance lang ++ medium_importance lang ++ sexist_indicators lang.

(** The interval a score lies in, by the way its token came to it: as
    a keyword of [high_importance] in the text; else as one of
    [medium_importance]; else as one of [sexist_indicators]; or, with no
    keyword in the text, as a word of the fallback. *)
Definition in_bucket (text_lower : str) (lang : lang_tokens) (token : str) (score : Q)
  : Prop :=
  (In token (high_importance lang) /\ contains token text_lower = true /\
   (0.8 <= score <= 1.0)%Q) \/
  (~ In token (high_importance lang) /\ In token (medium_importance lang) /\
   contains token text_lower = true /\ (0.5 <= score <= 0.8)%Q) \/
  (~ In token (high_importance lang) /\ ~ In token (medium_importance lang) /\
   In token (sexist_indicators lang) /\ contains token text_lower = true /\
   (0.7 <= score <= 0.95)%Q) \/
  ((forall k, In k (keywords lang) -> contains k text_lower = false) /\
   (0.1 <= score <= 0.4)%Q).

Section Occurrences.
Variable is_word : char -> bool.
Variable ci_match : char -> char -> bool.

(** The character before the position behind [occ], when [prev] is the
    character before [occ]. *)
Definition last_char (prev : option char) (occ : str) : option char :=
  last (map Some occ) prev.

(** [occ], found between the character [prev] and the text [rest], is an
    occurrence of [token]: it matches the token character by character
    without regard to case, and there is a word boundary before it and
    behind it. *)
Definition occurrence (token : str) (prev : option char) (occ rest : str) : Prop :=
  Forall2 (fun p c => ci_match p c = true) token occ /\
  at_boundary is_word prev (occ ++ rest) = true /\
  at_boundary is_word (last_char prev occ) rest = true.

(** [marked token prev s out]: [out] is the text [s] (with [prev] the
    character before it) in which the scan from left to right has
    replaced every occurrence of [token] it meets by the token itself,
    as the token list spells it, between two [**]; what lies between
    the occurrences is copied.  The last two rules are those of the
    empty token, whose occurrences are the word boundaries. *)
Inductive marked (token : str) : option char -> str -> str -> Prop :=
| marked_end prev :
    ~ occurrence token prev [] [] ->
    marked token prev [] []
| marked_copy prev c s out :
    (forall occ rest, c :: s = occ ++ rest -> ~ occurrence token prev occ rest) ->
    marked token (Some c) s out ->
    marked token prev (c :: s) (c :: out)
| marked_occurrence prev c occ rest out :
    occurrence token prev (c :: occ) rest ->
    marked token (last_char prev (c :: occ)) rest out ->
    marked token prev ((c :: occ) ++ rest) (replacement token ++ out)
| marked_empty_end prev :
    occurrence token prev [] [] ->
    marked token prev [] (replacement token)
| marked_empty prev c s out :
    occurrence token prev [] (c :: s) ->
    marked token (Some c) s out ->
    marked token prev (c :: s) (replacement token ++ c :: out).

(** The tokens of a list marked one after the other, each in the text
    the one before it left. *)
Inductive marked_all : list str -> str -> str -> Prop :=
| marked_all_nil text : marked_all [] text text
| marked_all_cons token tokens text mid out :
    marked token None text mid ->
    marked_all tokens mid out ->
    marked_all (token :: tokens) text out.

(** The token has an occurrence somewhere in the text. *)
Definition occurs (token text : str) : Prop :=
  exists pre occ rest,
    text = pre ++ occ ++ rest /\ occurrence token (last_char None pre) occ rest.

(** [re.search] from a position on: the pattern matches at the position
    or at a later one. *)
Fixpoint search_from (items : list re_item) (prev : option char) (s : str) : bool :=
  match match_here is_word ci_match items prev s with
  | Some _ => true
  | None =>
      match s with
      | [] => false
      | c :: s' => search_from items (Some c) s'
      end
  end.

End Occurrences.

(** A result that is a value, or the exception of a template. *)
Definition only_template_error {A : Type} (r : result A) : Prop :=
  match r with
  | Ok _ => True
  | Raise e => e = TemplateError
  end.

(** ** Inputs to run the model on *)

(** A run of the random generator: the [n]-th draw lies at the fraction
    [1/(n+2)] of its interval. *)
Definition uniform_seq (n : nat) (lo hi : Q) : Q :=
  (lo + (hi - lo) * (1 # Pos.of_nat (n + 2)))%Q.

(** The text of the kitchen scenario. *)
Definition kitchen_text : str := py "You should be in the kitchen, not working".

(** A text with eleven keywords of the English [high_importance] list. *)
Definition crowded_text : str :=
  py "slut women girls fem wife scholar woman onde ches teaching stitute".

(** A token of ten backslashes between two letters. *)
Definition backslash_token : str := repeat backslash 10.
Definition backslash_text : str := py "a" ++ backslash_token ++ py "a".

(** * Properties *)

(** ** Strings and dicts *)

Lemma str_eqb_eq (s t : str) : str_eqb s t = true <-> s = t.
Proof.
  revert t; induction s as [|a s IH]; intros [|b t]; simpl; split; intro H;
    try reflexivity; try discriminate.
  - apply andb_true_iff in H as [Hab Hst].
    apply N.eqb_eq in Hab. apply IH in Hst. now subst.
  - injection H as -> ->. rewrite N.eqb_refl. now apply IH.
Qed.

Lemma str_eqb_refl (s : str) : str_eqb s s = true.
Proof. now apply str_eqb_eq. Qed.

Lemma str_eqb_neq (s t : str) : str_eqb s t = false <-> s <> t.
Proof.
  rewrite <- str_eqb_eq. destruct (str_eqb s t); split; intro H;
    try discriminate; try reflexivity; now try contradiction.
Qed.

Lemma dict_mem_In (k : str) (d : dict) : dict_mem k d = true <-> In k (keys d).
Proof.
  induction d as [|[k' v] d IH]; simpl.
  - split; [discriminate | contradiction].
  - rewrite orb_true_iff, IH, str_eqb_eq. intuition.
Qed.

Lemma keys_dict_set (k : str) (v : Q) (d : dict) :
  keys (dict_set k v d) = if dict_mem k d then keys d else keys d ++ [k].
Proof.
  induction d as [|[k' v'] d IH]; simpl; [reflexivity|].
  destruct (str_eqb k k') eqn:E; simpl; [reflexivity|].
  rewrite IH. now destruct (dict_mem k d).
Qed.

Lemma In_dict_set (k k' : str) (v v' : Q) (d : dict) :
  In (k', v') (dict_set k v d) -> (k' = k /\ v' = v) \/ In (k', v') d.
Proof.
  induction d as [|[k0 v0] d IH]; simpl.
  - intros [H|[]]. injection H as <- <-. now left.
  - destruct (str_eqb k k0) eqn:E; simpl.
    + apply str_eqb_eq in E. subst k0.
      intros [H|H]; [injection H as <- <-; now left | right; now right].
    + intros [H|H]; [right; now left|].
      destruct (IH H) as [Hk|Hin]; [now left | right; now right].
Qed.

Lemma NoDup_keys_dict_set (k : str) (v : Q) (d : dict) :
  NoDup (keys d) -> NoDup (keys (dict_set k v d)).
Proof.
  intro Hnd. rewrite keys_dict_set.
  destruct (dict_mem k d) eqn:E; [assumption|].
  apply NoDup_app; [assumption | repeat constructor; intros [] | ].
  intros x Hx [<-|[]].
  apply dict_mem_In in Hx. congruence.
Qed.

Lemma In_keys_dict_set (k k' : str) (v : Q) (d : dict) :
  In k' (keys (dict_set k v d)) <-> k' = k \/ In k' (keys d).
Proof.
  rewrite keys_dict_set. destruct (dict_mem k d) eqn:E.
  - apply dict_mem_In in E. split; [now right | intros [->|H]; assumption].
  - rewrite in_app_iff. simpl. intuition.
Qed.

(** An assignment to a key that is absent from the dict leaves every
    other entry as it was. *)
Lemma dict_get_dict_set_other (k k' : str) (v : Q) (d : dict) :
  k' <> k -> dict_get k' (dict_set k v d) = dict_get k' d.
Proof.
  intro Hne. induction d as [|[k0 v0] d IH]; simpl.
  - apply str_eqb_neq in Hne. now rewrite Hne.
  - destruct (str_eqb k k0) eqn:E; simpl.
    + apply str_eqb_eq in E. subst k0.
      apply str_eqb_neq in Hne. now rewrite Hne.
    + now rewrite IH.
Qed.

Lemma dict_mem_get (k : str) (d : dict) :
  dict_mem k d = true -> exists v, dict_get k d = Some v.
Proof.
  induction d as [|[k' v'] d IH]; simpl; [discriminate|].
  destruct (str_eqb k k'); simpl; [intros _; now exists v' | exact IH].
Qed.

Lemma dict_get_In (k : str) (v : Q) (d : dict) :
  dict_get k d = Some v -> In (k, v) d.
Proof.
  induction d as [|[k' v'] d IH]; simpl; [discriminate|].
  destruct (str_eqb k k') eqn:E.
  - apply str_eqb_eq in E. subst k'. intro H. injection H as ->. now left.
  - intro H. right. now apply IH.
Qed.

(** ** Folds *)

Lemma fold_left_invariant {A B : Type} (f : A -> B -> A) (P : A -> Prop) (l : list B) :
  (forall a b, In b l -> P a -> P (f a b)) ->
  forall a, P a -> P (fold_left f l a).
Proof.
  induction l as [|b l IH]; simpl; intros Hstep a Ha; [assumption|].
  apply IH; [intros; apply Hstep; auto | apply Hstep; auto].
Qed.

(** ** The sort *)

Section SortedFacts.
Context {A : Type} (key_le : A -> A -> bool).
Hypothesis key_le_total : forall x y, key_le x y = false -> key_le y x = true.
Hypothesis key_le_trans :
  forall x y z, key_le x y = true -> key_le y z = true -> key_le x z = true.

Lemma insert_desc_perm (x : A) (l : list A) :
  Permutation (insert_desc key_le x l) (x :: l).
Proof.
  induction l as [|y l IH]; simpl; [reflexivity|].
  destruct (key_le y x); [reflexivity|].
  rewrite IH. apply perm_swap.
Qed.

Lemma sorted_desc_perm (l : list A) : Permutation (sorted_desc key_le l) l.
Proof.
  induction l as [|x l IH]; simpl; [reflexivity|].
  rewrite insert_desc_perm. now constructor.
Qed.

(** [descending]: every element is followed only by elements whose key
    is not greater. *)
Definition descending : list A -> Prop :=
  StronglySorted (fun x y => key_le y x = true).

Lemma insert_desc_descending (x : A) (l : list A) :
  descending l -> descending (insert_desc key_le x l).
Proof.
  induction 1 as [|y l Hl IH Hy]; simpl.
  - repeat constructor.
  - destruct (key_le y x) eqn:E.
    + constructor; [now constructor|].
      constructor; [assumption|].
      rewrite Forall_forall in *. intros z Hz.
      apply key_le_trans with y; auto.
    + constructor; [assumption|].
      rewrite Forall_forall in *. intros z Hz.
      apply (Permutation_in _ (insert_desc_perm x l)) in Hz.
      destruct Hz as [<-|Hz]; auto.
Qed.

Lemma sorted_desc_descending (l : list A) : descending (sorted_desc key_le l).
Proof.
  induction l as [|x l IH]; simpl; [constructor | now apply insert_desc_descending].
Qed.

(** The first element of the sorted list has a greatest key. *)
Lemma sorted_desc_head (l : list A) (x : A) (rest : list A) :
  sorted_desc key_le l = x :: rest ->
  forall y, In y l -> y = x \/ key_le y x = true.
Proof.
  intros E y Hy.
  pose proof (sorted_desc_descending l) as Hd. rewrite E in Hd.
  apply (Permutation_in _ (Permutation_sym (sorted_desc_perm l))) in Hy.
  rewrite E in Hy. destruct Hy as [->|Hy]; [now left | right].
  inversion Hd as [|? ? _ Hall]; subst.
  rewrite Forall_forall in Hall. auto.
Qed.

End SortedFacts.

Lemma score_le_total (x y : str * Q) : score_le x y = false -> score_le y x = true.
Proof.
  unfold score_le. intro H. apply Qle_bool_iff.
  destruct (Qlt_le_dec (snd x) (snd y)) as [Hlt|Hle]; [|assumption].
  apply Qlt_le_weak in Hlt. apply Qle_bool_iff in Hlt. congruence.
Qed.

Lemma score_le_trans (x y z : str * Q) :
  score_le x y = true -> score_le y z = true -> score_le x z = true.
Proof.
  unfold score_le. rewrite !Qle_bool_iff. apply Qle_trans.
Qed.

(** ** The selection loop *)

(** The loop returns what was selected before, followed by a prefix of
    the tokens still to visit; the prefix is not empty when there is a
    token to visit. *)
Lemma select_prefix (threshold total : Q) (l : dict) :
  forall cumulative selected,
  exists m, (l <> [] -> 1 <= m) /\
    select threshold total l cumulative selected = selected ++ firstn m (keys l).
Proof.
  induction l as [|[token score] l IH]; intros cumulative selected; cbn [select].
  - exists 0. split; [congruence | now rewrite app_nil_r].
  - match goal with |- context [if ?c then _ else _] => destruct c end.
    + exists 1. split; [lia|]. simpl. now destruct (keys l).
    + match goal with |- context [select _ _ _ ?c ?s] => destruct (IH c s) as [m [_ Hm]] end.
      exists (S m). split; [lia|]. rewrite Hm. simpl. now rewrite <- app_assoc.
Qed.

Lemma select_length (threshold total : Q) (l : dict) :
  forall cumulative selected,
  length selected < 10 ->
  length (select threshold total l cumulative selected) <= 10.
Proof.
  induction l as [|[token score] l IH]; intros cumulative selected Hlen; cbn [select].
  - lia.
  - destruct (Nat.leb 10 (length (selected ++ [token]))) eqn:E.
    + rewrite orb_true_r. rewrite length_app. simpl. lia.
    + rewrite orb_false_r. apply Nat.leb_gt in E.
      match goal with |- context [if ?c then _ else _] => destruct c end.
      * lia.
      * now apply IH.
Qed.

Lemma select_tokens_length (scores : dict) (threshold : Q) :
  length (select_tokens scores threshold) <= 10.
Proof. unfold select_tokens. apply select_length. simpl. lia. Qed.

Lemma In_firstn {A : Type} (m : nat) (l : list A) (x : A) :
  In x (firstn m l) -> In x l.
Proof.
  revert l; induction m as [|m IH]; intros [|y l]; simpl; try contradiction.
  intros [H|H]; [now left | right; now apply IH].
Qed.

Lemma NoDup_firstn {A : Type} (m : nat) (l : list A) : NoDup l -> NoDup (firstn m l).
Proof.
  revert l; induction m as [|m IH]; intros [|x l] H; simpl; try constructor.
  - inversion H; subst. intro Hin. apply In_firstn in Hin. contradiction.
  - inversion H; subst. now apply IH.
Qed.

(** The selected tokens are the first tokens of the sorted dict. *)
Lemma select_tokens_prefix (scores : dict) (threshold : Q) :
  exists m, (scores <> [] -> 1 <= m) /\
    select_tokens scores threshold = firstn m (keys (sorted_desc score_le scores)).
Proof.
  unfold select_tokens.
  destruct (select_prefix threshold
              (total_importance (sorted_desc score_le scores))
              (sorted_desc score_le scores) 0%Q []) as [m [Hm E]].
  exists m. split; [|exact E].
  intro Hne. apply Hm. intro Hs.
  pose proof (sorted_desc_perm score_le scores) as Hp. rewrite Hs in Hp.
  apply Permutation_nil in Hp. contradiction.
Qed.

Lemma select_tokens_In (scores : dict) (threshold : Q) (token : str) :
  In token (select_tokens scores threshold) -> In token (keys scores).
Proof.
  destruct (select_tokens_prefix scores threshold) as [m [_ ->]].
  intro H. apply In_firstn in H.
  apply (Permutation_in _ (Permutation_map fst (sorted_desc_perm score_le scores))).
  exact H.
Qed.

Lemma select_tokens_NoDup (scores : dict) (threshold : Q) :
  NoDup (keys scores) -> NoDup (select_tokens scores threshold).
Proof.
  intro H. destruct (select_tokens_prefix scores threshold) as [m [_ ->]].
  apply NoDup_firstn.
  apply (Permutation_NoDup
           (Permutation_sym (Permutation_map fst (sorted_desc_perm score_le scores)))).
  exact H.
Qed.

(** ** Sums of scores *)

Lemma fold_left_Qplus (l : list Q) :
  forall a, (fold_left Qplus l a == a + fold_right Qplus 0 l)%Q.
Proof.
  induction l as [|x l IH]; intro a; simpl; [lra|].
  rewrite IH. lra.
Qed.

Lemma total_importance_sum (d : dict) : (total_importance d == score_sum d)%Q.
Proof. unfold total_importance, score_sum. rewrite fold_left_Qplus. lra. Qed.

Lemma score_sum_nonneg (d : dict) :
  (forall t s, In (t, s) d -> (0 <= s)%Q) -> (0 <= score_sum d)%Q.
Proof.
  induction d as [|[t s] d IH]; intro H; unfold score_sum; simpl; [lra|].
  assert (0 <= s)%Q by (apply (H t); now left).
  assert (0 <= score_sum d)%Q by (apply IH; intros t' s' Hin; apply (H t'); now right).
  unfold score_sum in *. lra.
Qed.

(** One score is at most the sum of all, when no score is negative. *)
Lemma score_le_sum (d : dict) (k : str) (v : Q) :
  (forall t s, In (t, s) d -> (0 <= s)%Q) -> In (k, v) d -> (v <= score_sum d)%Q.
Proof.
  induction d as [|[t s] d IH]; intros H Hin; [contradiction|].
  assert (0 <= s)%Q by (apply (H t); now left).
  assert (0 <= score_sum d)%Q
    by (apply score_sum_nonneg; intros t' s' Hin'; apply (H t'); now right).
  unfold score_sum in *. simpl. destruct Hin as [E|Hin].
  - injection E as _ ->. lra.
  - assert (v <= fold_right Qplus 0 (map snd d))%Q
      by (apply IH; [intros t' s' Hin'; apply (H t'); now right | assumption]).
    lra.
Qed.

(** ** The threshold of 0.95 and a token of score 0.8 or more

    While fewer than ten tokens are selected, the scores selected so far
    add up to 9 at most, and a token of score 0.8 or more that is still
    to come keeps the cumulative fraction at 9/9.8 or less: the
    threshold does not stop the loop before that token. *)
Lemma select_reaches (total : Q) (k : str) (v : Q) (l : dict) :
  (0 < total)%Q -> (0.8 <= v)%Q ->
  forall cumulative selected,
  (forall t s, In (t, s) l -> (0 <= s <= 1)%Q) ->
  In (k, v) l ->
  (cumulative * total + score_sum l == total)%Q ->
  (cumulative * total <= inject_Z (Z.of_nat (length selected)))%Q ->
  length selected < 10 ->
  In k (select default_threshold total l cumulative selected) \/
  length (select default_threshold total l cumulative selected) = 10.
Proof.
  intros Htotal Hv.
  assert (Qlt_bool 0 total = true) as Hpos.
  { unfold Qlt_bool. destruct (Qle_bool total 0) eqn:E; [|reflexivity].
    apply Qle_bool_iff in E. lra. }
  induction l as [|[t s] l IH]; intros cumulative selected Hrange Hin Hsum Hcnt Hlen;
    [contradiction|].
  cbn [select]. rewrite Hpos.
  set (cumulative' := (cumulative + s / total)%Q).
  set (selected' := selected ++ [t]).
  assert (cumulative' * total == cumulative * total + s)%Q as Hcum
    by (unfold cumulative'; field; lra).
  assert (0 <= s <= 1)%Q as Hs by (apply (Hrange t); now left).
  assert (length selected' = S (length selected)) as Hlen'
    by (unfold selected'; rewrite length_app; simpl; lia).
  assert (cumulative' * total <= inject_Z (Z.of_nat (length selected')))%Q as Hcnt'.
  { rewrite Hlen', Nat2Z.inj_succ, <- Z.add_1_r, inject_Z_plus.
    change (inject_Z 1) with 1%Q. lra. }
  unfold score_sum in Hsum. simpl in Hsum. fold (score_sum l) in Hsum.
  destruct Hin as [E|Hin].
  - injection E as -> _. left.
    destruct (Qle_bool default_threshold cumulative' || Nat.leb 10 (length selected')).
    + unfold selected'. apply in_app_iff. right. now left.
    + destruct (select_prefix default_threshold total l cumulative' selected')
        as [m [_ ->]].
      apply in_app_iff. left. unfold selected'. apply in_app_iff. right. now left.
  - destruct (Nat.leb 10 (length selected')) eqn:Ecap.
    + rewrite orb_true_r. right. apply Nat.leb_le in Ecap. lia.
    + rewrite orb_false_r. apply Nat.leb_gt in Ecap.
      destruct (Qle_bool default_threshold cumulative') eqn:Eth.
      * exfalso. apply Qle_bool_iff in Eth.
        assert (default_threshold * total <= cumulative' * total)%Q as Hmul
          by (apply Qmult_le_compat_r; [assumption | lra]).
        assert (v <= score_sum l)%Q as Hrest.
        { apply score_le_sum with k; [|assumption].
          intros t' s' Hin'. apply (Hrange t'). now right. }
        assert (inject_Z (Z.of_nat (length selected')) <= 9)%Q as Hnine.
        { change 9%Q with (inject_Z 9). rewrite <- Zle_Qle. lia. }
        unfold default_threshold in Hmul.
        remember (cumulative' * total)%Q as x.
        remember (cumulative * total)%Q as y.
        lra.
      * apply IH; try assumption.
        -- intros t' s' Hin'. apply (Hrange t'). now right.
        -- rewrite Hcum. lra.
Qed.

(** ** The language lookup *)

Lemma subscript_supported (language : str) :
  supported language ->
  exists lang, subscript important_tokens language = Ok lang /\
               (lang = en_tokens \/ lang = es_tokens).
Proof.
  intros [->| ->]; [exists en_tokens | exists es_tokens]; split; auto.
Qed.

Lemma subscript_unsupported (language : str) :
  ~ supported language ->
  subscript important_tokens language = Raise (KeyError language).
Proof.
  unfold supported. intro H. simpl.
  destruct (str_eqb language (py "en")) eqn:E1.
  - apply str_eqb_eq in E1. tauto.
  - destruct (str_eqb language (py "es")) eqn:E2; [|reflexivity].
    apply str_eqb_eq in E2. tauto.
Qed.

(** ** Characters and words *)

(** Decides goals about the character ranges by cases on every
    comparison. *)
Ltac char_ranges :=
  unfold is_upper_latin1, is_ascii_letter, is_ascii_upper, is_ascii_lower,
    is_ascii_digit, is_ascii, in_range in *;
  repeat match goal with
         | H : context [N.leb ?a ?b] |- _ => destruct (N.leb_spec a b)
         | |- context [N.leb ?a ?b] => destruct (N.leb_spec a b)
         | H : context [N.ltb ?a ?b] |- _ => destruct (N.ltb_spec a b)
         | |- context [N.ltb ?a ?b] => destruct (N.ltb_spec a b)
         end;
  simpl in *; try reflexivity; try discriminate; try lia.

Lemma not_upper_no_uppercase (s : str) : forallb not_upper s = true -> no_uppercase s.
Proof.
  intros H c Hc. rewrite forallb_forall in H. specialize (H c Hc).
  unfold not_upper in H. apply andb_true_iff in H as [H1 H2].
  apply N.ltb_lt in H1. apply negb_true_iff in H2. auto.
Qed.

Lemma ascii_lower_not_upper (c : char) :
  is_ascii_letter c = true -> is_ascii_upper c = false ->
  (c < 256)%N /\ is_upper_latin1 c = false.
Proof. intros H1 H2. split; char_ranges. Qed.

Lemma ascii_lower_is_lower (c : char) : is_ascii_upper (ascii_lower c) = false.
Proof. unfold ascii_lower. destruct (is_ascii_upper c) eqn:E; char_ranges. Qed.

(** The characters of the words of [s.split()] are characters of [s]. *)
Lemma split_from_chars (s cur word : str) (c : char) :
  In word (split_from cur s) -> In c word -> In c cur \/ In c s.
Proof.
  revert cur. induction s as [|a s IH]; intros cur Hw Hc; simpl in Hw.
  - destruct cur; [contradiction|]. destruct Hw as [<-|[]]. now left.
  - destruct (isspace a).
    + destruct cur as [|b cur].
      * destruct (IH [] Hw Hc) as [[]|H]. right. now right.
      * destruct Hw as [<-|Hw]; [now left|].
        destruct (IH [] Hw Hc) as [[]|H]. right. now right.
    + destruct (IH _ Hw Hc) as [H|H].
      * apply in_app_iff in H as [H|[<-|[]]]; [now left | right; now left].
      * right. now right.
Qed.

Lemma split_chars (s word : str) (c : char) :
  In word (split s) -> In c word -> In c s.
Proof.
  intros Hw Hc. destruct (split_from_chars s [] word c Hw Hc) as [[]|H]. exact H.
Qed.

Lemma clean_chars (word : str) (c : char) :
  In c (clean word) -> In c word /\ is_ascii_letter c = true.
Proof. unfold clean. apply filter_In. Qed.

(** ** The scoring loops *)

Section ScoringFacts.
Variable uniform : nat -> Q -> Q -> Q.
Variable text_lower : str.
Variable lang : lang_tokens.

(** A property of the scoring state that holds at the start and that
    every assignment the loops can make preserves holds after the
    keyword loops. *)
Lemma keyword_scores_invariant (P : scoring -> Prop) :
  P ([], 0) ->
  (forall st token, In token (high_importance lang) ->
     contains token text_lower = true ->
     P st -> P (assign_score uniform 0.8 1.0 st token)) ->
  (forall st token, In token (medium_importance lang) ->
     contains token text_lower = true -> dict_mem token (fst st) = false ->
     P st -> P (assign_score uniform 0.5 0.8 st token)) ->
  (forall st token, In token (sexist_indicators lang) ->
     contains token text_lower = true -> dict_mem token (fst st) = false ->
     P st -> P (assign_score uniform 0.7 0.95 st token)) ->
  P (keyword_scores uniform text_lower lang).
Proof.
  intros H0 Hhigh Hmed Hsex.
  unfold keyword_scores, medium_scores, high_scores.
  apply fold_left_invariant.
  { intros st token Hin Hst. unfold score_unscored.
    destruct (contains token text_lower) eqn:Ec; simpl; [|assumption].
    destruct (dict_mem token (fst st)) eqn:Em; simpl; [assumption|].
    now apply Hsex. }
  apply fold_left_invariant.
  { intros st token Hin Hst. unfold score_unscored.
    destruct (contains token text_lower) eqn:Ec; simpl; [|assumption].
    destruct (dict_mem token (fst st)) eqn:Em; simpl; [assumption|].
    now apply Hmed. }
  apply fold_left_invariant; [|assumption].
  intros st token Hin Hst. unfold score_high.
  destruct (contains token text_lower) eqn:Ec; [|assumption].
  now apply Hhigh.
Qed.

(** The same, with the fallback loop. *)
Lemma token_scores_invariant (P : scoring -> Prop) :
  P ([], 0) ->
  (forall st token, In token (high_importance lang) ->
     contains token text_lower = true ->
     P st -> P (assign_score uniform 0.8 1.0 st token)) ->
  (forall st token, In token (medium_importance lang) ->
     contains token text_lower = true -> dict_mem token (fst st) = false ->
     P st -> P (assign_score uniform 0.5 0.8 st token)) ->
  (forall st token, In token (sexist_indicators lang) ->
     contains token text_lower = true -> dict_mem token (fst st) = false ->
     P st -> P (assign_score uniform 0.7 0.95 st token)) ->
  (forall st word, In word (firstn 5 (split text_lower)) ->
     2 < length (clean word) ->
     P st -> P (assign_score uniform 0.1 0.4 st (clean word))) ->
  P (token_scores uniform text_lower lang).
Proof.
  intros H0 Hhigh Hmed Hsex Hword.
  pose proof (keyword_scores_invariant P H0 Hhigh Hmed Hsex) as Hk.
  unfold token_scores.
  destruct (fst (keyword_scores uniform text_lower lang)); [|assumption].
  apply fold_left_invariant; [|assumption].
  intros st word Hin Hst. unfold score_word.
  destruct (Nat.ltb 2 (length (clean word))) eqn:E; [|assumption].
  apply Nat.ltb_lt in E. now apply Hword.
Qed.

(** Every entry of the dict took a draw. *)
Lemma entries_le_draws :
  length (fst (token_scores uniform text_lower lang))
  <= snd (token_scores uniform text_lower lang).
Proof.
  assert (forall lo hi st tok, length (fst st) <= snd st ->
            length (fst (assign_score uniform lo hi st tok))
            <= snd (assign_score uniform lo hi st tok)) as Hstep.
  { intros lo hi st tok H. cbn [assign_score fst snd].
    assert (length (keys (dict_set tok (uniform (snd st) lo hi) (fst st)))
            <= S (length (keys (fst st)))) as Hk.
    { rewrite keys_dict_set. destruct (dict_mem tok (fst st)); [lia|].
      rewrite length_app. simpl. lia. }
    unfold keys in Hk. rewrite !length_map in Hk.
    eapply Nat.le_trans; [exact Hk | now apply le_n_S]. }
  apply token_scores_invariant with (P := fun st => length (fst st) <= snd st);
    auto.
Qed.

(** The keys of [token_scores] are pairwise different. *)
Lemma token_scores_NoDup : NoDup (keys (fst (token_scores uniform text_lower lang))).
Proof.
  apply token_scores_invariant with (P := fun st => NoDup (keys (fst st)));
    try (intros; simpl; now apply NoDup_keys_dict_set).
  constructor.
Qed.

(** Where a key of [token_scores] comes from: one of the three keyword
    lists, or a cleaned word of the text. *)
Lemma token_scores_keys (token : str) :
  In token (keys (fst (token_scores uniform text_lower lang))) ->
  In token (high_importance lang ++ medium_importance lang ++ sexist_indicators lang)
  \/ exists word, In word (split text_lower) /\ token = clean word.
Proof.
  revert token.
  apply token_scores_invariant with
    (P := fun st => forall token, In token (keys (fst st)) ->
       In token (high_importance lang ++ medium_importance lang ++ sexist_indicators lang)
       \/ exists word, In word (split text_lower) /\ token = clean word).
  - intros token [].
  - intros st tok Hin _ IH token H. simpl in H.
    apply In_keys_dict_set in H as [->|H]; [left | now apply IH].
    rewrite !in_app_iff. auto.
  - intros st tok Hin _ _ IH token H. simpl in H.
    apply In_keys_dict_set in H as [->|H]; [left | now apply IH].
    rewrite !in_app_iff. auto.
  - intros st tok Hin _ _ IH token H. simpl in H.
    apply In_keys_dict_set in H as [->|H]; [left | now apply IH].
    rewrite !in_app_iff. auto.
  - intros st word Hin _ IH token H. simpl in H.
    apply In_keys_dict_set in H as [->|H]; [right | now apply IH].
    exists word. split; [|reflexivity]. now apply In_firstn in Hin.
Qed.

(** The loops over [medium_importance] and [sexist_indicators] leave a
    token that has a score with that score. *)
Lemma score_unscored_keeps (lo hi : Q) (st : scoring) (tok token : str) :
  dict_mem token (fst st) = true ->
  dict_mem token (fst (score_unscored uniform lo hi text_lower st tok)) = true /\
  dict_get token (fst (score_unscored uniform lo hi text_lower st tok))
    = dict_get token (fst st).
Proof.
  intro Hmem. unfold score_unscored.
  destruct (contains tok text_lower); simpl; [|auto].
  destruct (dict_mem tok (fst st)) eqn:E; simpl; [auto|].
  assert (token <> tok) as Hne by (intros ->; congruence).
  split.
  - apply dict_mem_In. apply In_keys_dict_set. right. now apply dict_mem_In.
  - now apply dict_get_dict_set_other.
Qed.

Lemma fold_score_unscored_keeps (lo hi : Q) (l : list str) (token : str) :
  forall st, dict_mem token (fst st) = true ->
  dict_mem token (fst (fold_left (score_unscored uniform lo hi text_lower) l st)) = true /\
  dict_get token (fst (fold_left (score_unscored uniform lo hi text_lower) l st))
    = dict_get token (fst st).
Proof.
  induction l as [|tok l IH]; intros st Hmem; simpl; [auto|].
  destruct (score_unscored_keeps lo hi st tok token Hmem) as [Hm Hg].
  destruct (IH _ Hm) as [Hm' Hg']. split; [assumption | congruence].
Qed.

(** The fallback loop runs only on an empty dict. *)
Lemma token_scores_keyword (token : str) :
  dict_mem token (fst (keyword_scores uniform text_lower lang)) = true ->
  token_scores uniform text_lower lang = keyword_scores uniform text_lower lang.
Proof.
  unfold token_scores.
  destruct (fst (keyword_scores uniform text_lower lang)); [discriminate | reflexivity].
Qed.

(** A token scored in the loop over [high_importance] ends with the
    score that loop left it with. *)
Lemma high_score_kept (token : str) :
  dict_mem token (fst (high_scores uniform text_lower lang)) = true ->
  dict_mem token (fst (token_scores uniform text_lower lang)) = true /\
  dict_get token (fst (token_scores uniform text_lower lang))
    = dict_get token (fst (high_scores uniform text_lower lang)).
Proof.
  intro Hmem.
  destruct (fold_score_unscored_keeps 0.5 0.8 (medium_importance lang) token _ Hmem)
    as [Hm1 Hg1].
  destruct (fold_score_unscored_keeps 0.7 0.95 (sexist_indicators lang) token _ Hm1)
    as [Hm2 Hg2].
  fold (medium_scores uniform text_lower lang) in Hm1, Hg1, Hm2, Hg2.
  fold (keyword_scores uniform text_lower lang) in Hm2, Hg2.
  rewrite (token_scores_keyword token Hm2). split; [assumption | congruence].
Qed.

(** A token scored in the loop over [medium_importance] likewise. *)
Lemma medium_score_kept (token : str) :
  dict_mem token (fst (medium_scores uniform text_lower lang)) = true ->
  dict_mem token (fst (token_scores uniform text_lower lang)) = true /\
  dict_get token (fst (token_scores uniform text_lower lang))
    = dict_get token (fst (medium_scores uniform text_lower lang)).
Proof.
  intro Hmem.
  destruct (fold_score_unscored_keeps 0.7 0.95 (sexist_indicators lang) token _ Hmem)
    as [Hm2 Hg2].
  fold (keyword_scores uniform text_lower lang) in Hm2, Hg2.
  rewrite (token_scores_keyword token Hm2). split; [assumption | congruence].
Qed.

(** *** The ranges of the scores *)

Hypothesis uniform_in_range :
  forall n lo hi, (lo <= hi)%Q -> (lo <= uniform n lo hi <= hi)%Q.

Lemma assign_score_range (lo hi a b : Q) (st : scoring) (tok : str) :
  (lo <= hi)%Q -> (a <= lo)%Q -> (hi <= b)%Q ->
  (forall t s, In (t, s) (fst st) -> (a <= s <= b)%Q) ->
  forall t s, In (t, s) (fst (assign_score uniform lo hi st tok)) -> (a <= s <= b)%Q.
Proof.
  intros Hlh Ha Hb Hst t s Hin. simpl in Hin.
  apply In_dict_set in Hin as [[_ ->]|Hin]; [|now apply (Hst t)].
  pose proof (uniform_in_range (snd st) lo hi Hlh). lra.
Qed.

(** Every score lies in [0.1, 1]. *)
Lemma token_scores_range (t : str) (s : Q) :
  In (t, s) (fst (token_scores uniform text_lower lang)) -> (0.1 <= s <= 1)%Q.
Proof.
  revert t s.
  apply token_scores_invariant with
    (P := fun st => forall t s, In (t, s) (fst st) -> (0.1 <= s <= 1)%Q).
  - intros t s [].
  - intros st tok _ _ IH. apply assign_score_range; [lra | lra | lra | exact IH].
  - intros st tok _ _ _ IH. apply assign_score_range; [lra | lra | lra | exact IH].
  - intros st tok _ _ _ IH. apply assign_score_range; [lra | lra | lra | exact IH].
  - intros st tok _ _ IH. apply assign_score_range; [lra | lra | lra | exact IH].
Qed.

(** The loop over [high_importance] gives scores in [0.8, 1]. *)
Lemma high_scores_range (t : str) (s : Q) :
  In (t, s) (fst (high_scores uniform text_lower lang)) -> (0.8 <= s <= 1)%Q.
Proof.
  revert t s. unfold high_scores.
  apply fold_left_invariant with
    (P := fun st : scoring => forall t s, In (t, s) (fst st) -> (0.8 <= s <= 1)%Q).
  - intros st tok _ IH. unfold score_high.
    destruct (contains tok text_lower); [|exact IH].
    apply assign_score_range; [lra | lra | lra | exact IH].
  - intros t s [].
Qed.

(** It scores every keyword of the list that is in the text. *)
Lemma fold_score_high_mem (token : str) (l : list str) :
  contains token text_lower = true ->
  forall st, dict_mem token (fst st) = true \/ In token l ->
  dict_mem token (fst (fold_left (score_high uniform text_lower) l st)) = true.
Proof.
  intro Hc. induction l as [|tok l IH]; intros st H; simpl.
  - destruct H as [H|[]]. exact H.
  - apply IH. unfold score_high.
    destruct H as [H|[->|H]].
    + left. destruct (contains tok text_lower); [|exact H]. simpl.
      apply dict_mem_In, In_keys_dict_set. right. now apply dict_mem_In.
    + left. rewrite Hc. simpl. apply dict_mem_In, In_keys_dict_set. now left.
    + now right.
Qed.

(** A keyword of [high_importance] that is in the text ends with a
    score of 0.8 or more. *)
Lemma high_keyword_score (token : str) :
  In token (high_importance lang) -> contains token text_lower = true ->
  exists score, In (token, score) (fst (token_scores uniform text_lower lang)) /\
                (0.8 <= score)%Q.
Proof.
  intros Hin Hc.
  assert (dict_mem token (fst (high_scores uniform text_lower lang)) = true) as Hmem
    by (apply fold_score_high_mem; auto).
  destruct (high_score_kept token Hmem) as [_ Hget].
  destruct (dict_mem_get _ _ Hmem) as [score Hscore].
  exists score. split.
  - apply dict_get_In. congruence.
  - apply dict_get_In in Hscore. now apply high_scores_range in Hscore.
Qed.

End ScoringFacts.

Section AnalyzerFacts.
Variable lower : str -> str.
Variable uniform : nat -> Q -> Q -> Q.
Variable is_word : char -> bool.
Variable ci_match : char -> char -> bool.

(** C1. With a language that is no key of the keyword table,
    [get_important_tokens] raises the lookup's [KeyError] (the error the
    specification calls UnsupportedLanguageError) whatever the text and
    the threshold are, and [analyze_tweet] lets it through to its
    caller. *)
Theorem unsupported_language_raises (text language : str) (threshold : Q) :
  ~ supported language ->
  get_important_tokens lower uniform text language threshold
    = Raise (KeyError language) /\
  analyze_tweet lower uniform is_word ci_match text language
    = Raise (KeyError language).
Proof.
  intro H. unfold analyze_tweet, get_important_tokens.
  rewrite (subscript_unsupported language H). simpl. auto.
Qed.

(** C5, as the code has it.  The keys of [token_scores] are pairwise
    different; a token scored under [high_importance] keeps that score
    through the loops over [medium_importance] and [sexist_indicators],
    and a token scored under [medium_importance] keeps it through the
    loop over [sexist_indicators]; the returned list has no duplicate.
    How often a score is drawn for one token is left open: the first
    loop and the fallback loop assign without looking at the dict. *)
Theorem no_rescoring_across_lists_no_duplicates (text language : str) (threshold : Q) :
  supported language ->
  exists lang tokens,
    subscript important_tokens language = Ok lang /\
    get_important_tokens lower uniform text language threshold = Ok tokens /\
    NoDup tokens /\
    NoDup (keys (fst (token_scores uniform (lower text) lang))) /\
    (forall token,
        dict_mem token (fst (high_scores uniform (lower text) lang)) = true ->
        dict_get token (fst (token_scores uniform (lower text) lang))
          = dict_get token (fst (high_scores uniform (lower text) lang))) /\
    (forall token,
        dict_mem token (fst (medium_scores uniform (lower text) lang)) = true ->
        dict_get token (fst (token_scores uniform (lower text) lang))
          = dict_get token (fst (medium_scores uniform (lower text) lang))).
Proof.
  intro H. destruct (subscript_supported language H) as [lang [E _]].
  exists lang. eexists. split; [exact E|].
  unfold get_important_tokens. rewrite E. simpl.
  split; [reflexivity|].
  split; [apply select_tokens_NoDup, token_scores_NoDup|].
  split; [apply token_scores_NoDup|].
  split; intros token Hmem.
  - now apply high_score_kept.
  - now apply medium_score_kept.
Qed.

(** C10. Whatever the threshold is, when at least one token has a score
    the returned list is not empty and its first token has a greatest
    score among all scored tokens: the loop appends the first sorted
    token before it looks at the threshold. *)
Theorem first_token_has_greatest_score (text language : str) (threshold : Q)
    (lang : lang_tokens) :
  subscript important_tokens language = Ok lang ->
  fst (token_scores uniform (lower text) lang) <> [] ->
  exists token rest score,
    get_important_tokens lower uniform text language threshold = Ok (token :: rest) /\
    In (token, score) (fst (token_scores uniform (lower text) lang)) /\
    forall token' score',
      In (token', score') (fst (token_scores uniform (lower text) lang)) ->
      (score' <= score)%Q.
Proof.
  intros E Hne. unfold get_important_tokens. rewrite E. simpl.
  set (scores := fst (token_scores uniform (lower text) lang)) in *.
  destruct (select_tokens_prefix scores threshold) as [m [Hm ->]].
  specialize (Hm Hne).
  destruct (sorted_desc score_le scores) as [|[token score] sorted] eqn:Es.
  - pose proof (sorted_desc_perm score_le scores) as Hp. rewrite Es in Hp.
    apply Permutation_nil in Hp. contradiction.
  - destruct m as [|m]; [lia|]. simpl.
    exists token, (firstn m (keys sorted)), score.
    split; [reflexivity|]. split.
    + apply (Permutation_in _ (sorted_desc_perm score_le scores)).
      rewrite Es. now left.
    + intros token' score' Hin.
      destruct (sorted_desc_head score_le score_le_total score_le_trans
                  scores _ _ Es _ Hin) as [Heq|Hle].
      * injection Heq as _ ->. apply Qle_refl.
      * now apply Qle_bool_iff in Hle.
Qed.

(** What the theorems below assume of [str.lower]: on text of ASCII
    characters it lowercases A-Z and keeps the rest, and no text has an
    uppercase ASCII letter left after it. *)
Hypothesis lower_on_ascii :
  forall s, forallb is_ascii s = true -> lower s = lower_ascii s.
Hypothesis lower_leaves_no_ascii_upper :
  forall s c, In c (lower s) -> is_ascii_upper c = false.

(** What they assume of [np.random.uniform]: a draw lies in its
    interval. *)
Hypothesis uniform_in_range :
  forall n lo hi, (lo <= hi)%Q -> (lo <= uniform n lo hi <= hi)%Q.

(** C8. On the empty text and the language 'en', [get_important_tokens]
    raises nothing and returns the empty list: no keyword is in the
    text, and the fallback loop has no word to score. *)
Theorem empty_text_gives_no_tokens (threshold : Q) :
  get_important_tokens lower uniform [] (py "en") threshold = Ok [] /\
  fst (token_scores uniform (lower []) en_tokens) = [].
Proof.
  unfold get_important_tokens.
  rewrite (lower_on_ascii [] eq_refl). split; reflexivity.
Qed.

(** C9. No token that [get_important_tokens] returns has an uppercase
    character, whatever the text, the supported language and the
    threshold are: every character of a returned token lies below
    U+0100 and is no uppercase letter. *)
Theorem returned_tokens_have_no_uppercase (text language : str) (threshold : Q) :
  supported language ->
  exists tokens,
    get_important_tokens lower uniform text language threshold = Ok tokens /\
    forall token, In token tokens -> no_uppercase token.
Proof.
  intro H. destruct (subscript_supported language H) as [lang [E Hlang]].
  unfold get_important_tokens. rewrite E. simpl.
  eexists. split; [reflexivity|].
  intros token Hin. apply select_tokens_In in Hin.
  apply token_scores_keys in Hin as [Hkw|[word [Hw ->]]].
  - apply not_upper_no_uppercase.
    assert (forallb (forallb not_upper)
              (high_importance lang ++ medium_importance lang ++ sexist_indicators lang)
            = true) as Hall by (destruct Hlang as [-> | ->]; reflexivity).
    rewrite forallb_forall in Hall. now apply Hall.
  - intros c Hc. apply clean_chars in Hc as [Hc Hletter].
    apply ascii_lower_not_upper; [assumption|].
    apply lower_leaves_no_ascii_upper with text.
    now apply split_chars with word.
Qed.

(** C6. On "You should be in the kitchen, not working" and 'en', in
    every run, 'kitchen' is the one token that gets a score, its score
    lies in [0.7, 0.95], and the returned list holds it. *)
Theorem kitchen_is_selected (threshold : Q) :
  exists score,
    fst (token_scores uniform (lower kitchen_text) en_tokens) = [(py "kitchen", score)] /\
    (0.7 <= score <= 0.95)%Q /\
    get_important_tokens lower uniform kitchen_text (py "en") threshold
      = Ok [py "kitchen"].
Proof.
  exists (uniform 0 0.7 0.95)%Q.
  unfold get_important_tokens.
  rewrite (lower_on_ascii kitchen_text eq_refl).
  assert (fst (token_scores uniform (lower_ascii kitchen_text) en_tokens)
          = [(py "kitchen", uniform 0 0.7 0.95)%Q]) as E by reflexivity.
  split; [exact E|]. split.
  - apply uniform_in_range. discriminate.
  - change (subscript important_tokens (py "en")) with (Ok en_tokens).
    cbn [bind]. rewrite E. unfold select_tokens. cbn [sorted_desc fold_right insert_desc select app].
    match goal with |- context [if ?c then _ else _] => destruct c end; reflexivity.
Qed.

(** C3, as the code has it.  A keyword of the language's
    [high_importance] list that is in the lowercased text is in the list
    [get_important_tokens] returns with the default threshold, unless
    that list is full with ten tokens. *)
Theorem high_importance_keyword_selected_or_list_full
    (text language keyword : str) (lang : lang_tokens) :
  subscript important_tokens language = Ok lang ->
  In keyword (high_importance lang) ->
  contains keyword (lower text) = true ->
  exists tokens,
    get_important_tokens lower uniform text language default_threshold = Ok tokens /\
    (In keyword tokens \/ length tokens = 10).
Proof.
  intros E Hin Hc. unfold get_important_tokens. rewrite E. cbn [bind].
  eexists. split; [reflexivity|].
  destruct (high_keyword_score uniform (lower text) lang uniform_in_range
              keyword Hin Hc) as [score [Hscore Hge]].
  pose proof (token_scores_range uniform (lower text) lang uniform_in_range) as Hrange.
  set (scores := fst (token_scores uniform (lower text) lang)) in *.
  unfold select_tokens.
  pose proof (sorted_desc_perm score_le scores) as Hperm.
  set (sorted_tokens := sorted_desc score_le scores) in *.
  assert (forall t s, In (t, s) sorted_tokens -> (0 <= s <= 1)%Q) as Hrange'.
  { intros t s H. apply (Permutation_in _ Hperm) in H.
    apply Hrange in H. lra. }
  assert (In (keyword, score) sorted_tokens) as Hscore'
    by (apply (Permutation_in _ (Permutation_sym Hperm)); exact Hscore).
  pose proof (total_importance_sum sorted_tokens) as Htotal.
  assert (score <= score_sum sorted_tokens)%Q as Hsum.
  { apply score_le_sum with keyword; [|assumption].
    intros t s H. apply Hrange' in H. lra. }
  apply select_reaches with (v := score); try assumption.
  - lra.
  - rewrite Htotal. ring.
  - simpl. rewrite Qmult_0_l. apply Qle_refl.
  - simpl. lia.
Qed.

End AnalyzerFacts.

(** ** Replacement templates without a backslash *)

Lemma tokenize_plain (s : str) :
  ~ In backslash s -> tokenize s = Ok (map Plain s).
Proof.
  induction s as [|c s IH]; intro H; simpl; [reflexivity|].
  destruct (N.eqb c backslash) eqn:E.
  - apply N.eqb_eq in E. exfalso. apply H. now left.
  - rewrite IH; [reflexivity | intro Hin; apply H; now right].
Qed.

Lemma parse_tokens_plain (s : str) :
  forall fuel, length s <= fuel -> parse_tokens fuel (map Plain s) = Ok (map TLit s).
Proof.
  induction s as [|c s IH]; intros fuel H.
  - now destruct fuel.
  - destruct fuel as [|fuel]; [simpl in H; lia|].
    cbn [map parse_tokens].
    rewrite IH; [reflexivity | simpl in H; lia].
Qed.

Lemma getuntil_length (ts : list tpl_token) (name : str) (rest : list tpl_token) :
  getuntil ts = Some (name, rest) -> length rest < length ts.
Proof.
  revert name. induction ts as [|t ts IH]; intros name H; simpl in H; [discriminate|].
  destruct (is_plain 62%N t).
  - injection H as _ <-. simpl. lia.
  - destruct (getuntil ts) as [[name' rest']|]; [|discriminate].
    injection H as _ <-. specialize (IH name' eq_refl). simpl. lia.
Qed.

(** The fuel of [parse_tokens] does not matter once it covers the
    tokens: the loop never runs out of it. *)
Lemma parse_tokens_fuel (n : nat) :
  forall ts fuel1 fuel2,
  length ts <= n -> length ts <= fuel1 -> length ts <= fuel2 ->
  parse_tokens fuel1 ts = parse_tokens fuel2 ts.
Proof.
  induction n as [|n IH]; intros ts fuel1 fuel2 Hn H1 H2.
  - destruct ts; [|simpl in Hn; lia]. now destruct fuel1, fuel2.
  - destruct ts as [|t ts]; [now destruct fuel1, fuel2|].
    destruct fuel1 as [|fuel1]; [simpl in H1; lia|].
    destruct fuel2 as [|fuel2]; [simpl in H2; lia|].
    simpl in Hn, H1, H2. cbn [parse_tokens].
    assert (forall ts', length ts' <= length ts ->
              parse_tokens fuel1 ts' = parse_tokens fuel2 ts') as Hrec
      by (intros ts' Hlen; apply IH; lia).
    destruct t as [c|c]; [now rewrite (Hrec ts)|].
    destruct (N.eqb c 103).
    { destruct ts as [|t' ts']; [reflexivity|].
      destruct (is_plain 60%N t'); [|reflexivity].
      destruct (getuntil ts') as [[name rest]|] eqn:Eg; [|reflexivity].
      apply getuntil_length in Eg.
      rewrite (Hrec rest); [reflexivity | simpl; lia]. }
    destruct (N.eqb c 48).
    { destruct ts as [|[d1|e1] [|[d2|e2] rest]];
        repeat match goal with
               | |- context [if ?b then _ else _] => destruct b
               end;
        try reflexivity;
        match goal with
        | |- context [parse_tokens fuel1 ?l] =>
            rewrite (Hrec l); [reflexivity | simpl; lia]
        end. }
    destruct (is_ascii_digit c).
    { destruct ts as [|[d1|e1] [|[d2|e2] rest]]; try reflexivity.
      destruct (is_ascii_digit d1 && is_octdigit c && is_octdigit d1 && is_octdigit d2);
        [|reflexivity].
      match goal with |- context [if ?b then _ else _] => destruct b end;
        [reflexivity|].
      rewrite (Hrec rest); [reflexivity | simpl; lia]. }
    destruct (escape_char c); [now rewrite (Hrec ts)|].
    destruct (is_ascii_letter c); [reflexivity | now rewrite (Hrec ts)].
Qed.

(** A template without a backslash stands for itself. *)
Lemma parse_template_plain (s : str) :
  ~ In backslash s -> parse_template s = Ok (map TLit s).
Proof.
  intro H. unfold parse_template. rewrite (tokenize_plain s H). simpl.
  apply parse_tokens_plain. now rewrite length_map.
Qed.

Lemma expand_plain (s matched : str) : expand (map TLit s) matched = s.
Proof.
  unfold expand. induction s as [|c s IH]; simpl; [reflexivity | now rewrite IH].
Qed.

Lemma replacement_no_backslash (token : str) :
  ~ In backslash token -> ~ In backslash (replacement token).
Proof.
  intros H Hin. unfold replacement in Hin.
  rewrite !in_app_iff in Hin. simpl in Hin. unfold backslash in *.
  destruct Hin as [[E|[E|[]]]|[Hin|[E|[E|[]]]]]; try discriminate. contradiction.
Qed.

Lemma last_cons {A : Type} (x d : A) (l : list A) : last (x :: l) d = last l x.
Proof.
  revert x d. induction l as [|y l IH]; intros x d; [reflexivity|].
  change (last (x :: y :: l) d) with (last (y :: l) d).
  now rewrite (IH y d), (IH y x).
Qed.

Section HighlightFacts.
Variable is_word : char -> bool.
Variable ci_match : char -> char -> bool.

Local Abbreviation occurrence := (occurrence is_word ci_match).
Local Abbreviation marked := (marked is_word ci_match).
Local Abbreviation marked_all := (marked_all is_word ci_match).

Lemma match_literals (token : str) :
  forall prev s m,
  match_here is_word ci_match (map Literal token ++ [Boundary]) prev s = Some m <->
  exists rest, s = m ++ rest /\
    Forall2 (fun p c => ci_match p c = true) token m /\
    at_boundary is_word (last_char prev m) rest = true.
Proof.
  induction token as [|p token IH]; intros prev s m; simpl.
  - destruct (at_boundary is_word prev s) eqn:E; split.
    + intro H. injection H as <-. exists s. repeat split; [constructor | exact E].
    + intros [rest [-> [H _]]]. inversion H. reflexivity.
    + discriminate.
    + intros [rest [-> [H Hb]]]. inversion H; subst.
      unfold last_char in Hb. simpl in Hb, E. congruence.
  - destruct s as [|c s].
    + split; [discriminate|].
      intros [rest [E [H _]]]. inversion H; subst. discriminate.
    + destruct (ci_match p c) eqn:Ec.
      * destruct (match_here is_word ci_match (map Literal token ++ [Boundary])
                    (Some c) s) as [m'|] eqn:Em; simpl; split.
        -- intro H. injection H as <-.
           apply IH in Em as [rest [-> [Hf Hb]]].
           exists rest. repeat split; [now constructor|].
           unfold last_char in *. simpl map. now rewrite last_cons.
        -- intros [rest [E [Hf Hb]]]. inversion Hf as [|? c' ? m'' _ Hf']; subst.
           injection E as <- ->.
           assert (match_here is_word ci_match (map Literal token ++ [Boundary])
                     (Some c) (m'' ++ rest) = Some m'') as Em'.
           { apply IH. exists rest. repeat split; [assumption|].
             unfold last_char in *. simpl map in Hb. now rewrite last_cons in Hb. }
           rewrite Em in Em'. now inversion Em'.
        -- discriminate.
        -- intros [rest [E [Hf Hb]]]. inversion Hf as [|? c' ? m'' _ Hf']; subst.
           injection E as <- ->.
           assert (match_here is_word ci_match (map Literal token ++ [Boundary])
                     (Some c) (m'' ++ rest) = Some m'') as Em'.
           { apply IH. exists rest. repeat split; [assumption|].
             unfold last_char in *. simpl map in Hb. now rewrite last_cons in Hb. }
           rewrite Em in Em'. now inversion Em'.
      * split; [discriminate|].
        intros [rest [E [Hf _]]]. inversion Hf; subst.
        injection E as <- ->. congruence.
Qed.

(** The pattern of a token matches at a position exactly the occurrences
    of the token that begin there. *)
Lemma match_here_occurrence (token : str) (prev : option char) (s m : str) :
  match_here is_word ci_match (pattern token) prev s = Some m <->
  exists rest, s = m ++ rest /\ occurrence token prev m rest.
Proof.
  unfold pattern, occurrence. simpl.
  destruct (at_boundary is_word prev s) eqn:E.
  - rewrite match_literals. split; intros [rest [-> H]]; exists rest.
    + tauto.
    + tauto.
  - split; [discriminate|]. intros [rest [-> [_ [H _]]]]. congruence.
Qed.

Lemma sub_from_skip (items : list re_item) (template : list tpl_item) (m rest : str) :
  forall prev,
  sub_from is_word ci_match items template prev (length m) (m ++ rest)
  = sub_from is_word ci_match items template (last_char prev m) 0 rest.
Proof.
  induction m as [|c m IH]; intro prev; [reflexivity|].
  cbn [length app sub_from]. rewrite IH.
  unfold last_char. simpl map. now rewrite last_cons.
Qed.

Lemma sub_from_marked (token : str) (n : nat) :
  forall s, length s <= n -> forall prev,
  marked token prev s
    (sub_from is_word ci_match (pattern token) (map TLit (replacement token)) prev 0 s).
Proof.
  induction n as [|n IH]; intros s Hlen prev.
  - destruct s; [|simpl in Hlen; lia].
    cbn [sub_from].
    destruct (match_here is_word ci_match (pattern token) prev []) as [m|] eqn:E.
    + apply match_here_occurrence in E as [rest [Hs Hocc]].
      symmetry in Hs. apply app_eq_nil in Hs as [-> ->].
      rewrite expand_plain, app_nil_r. now constructor.
    + constructor. intro Hocc.
      assert (match_here is_word ci_match (pattern token) prev [] = Some []) as E'
        by (apply match_here_occurrence; now exists []).
      rewrite E in E'. discriminate.
  - destruct s as [|c s].
    + apply IH. simpl. lia.
    + cbn [sub_from].
      destruct (match_here is_word ci_match (pattern token) prev (c :: s)) as [m|] eqn:E.
      * apply match_here_occurrence in E as [rest [Hs Hocc]].
        rewrite expand_plain. destruct m as [|c' m].
        -- simpl in Hs. subst rest. apply marked_empty; [assumption|].
           apply IH. simpl in Hlen. lia.
        -- simpl in Hs. injection Hs as <- ->.
           rewrite sub_from_skip.
           replace (last_char (Some c) m) with (last_char prev (c :: m))
             by (unfold last_char; simpl map; now rewrite last_cons).
           apply (marked_occurrence is_word ci_match token prev c m rest); [assumption|].
           apply IH. simpl in Hlen. rewrite length_app in Hlen. lia.
      * apply marked_copy.
        -- intros occ rest Hs Hocc.
           assert (match_here is_word ci_match (pattern token) prev (c :: s) = Some occ)
             as E' by (apply match_here_occurrence; now exists rest).
           rewrite E in E'. discriminate.
        -- apply IH. simpl in Hlen. lia.
Qed.

(** One round of the loop of [highlight_tokens], for a token without a
    backslash. *)
Lemma highlight_token_marked (text token : str) :
  ~ In backslash token ->
  exists out, highlight_token is_word ci_match text token = Ok out /\
              marked token None text out.
Proof.
  intro H. unfold highlight_token, re_sub.
  rewrite (parse_template_plain _ (replacement_no_backslash token H)).
  cbn [bind]. eexists. split; [reflexivity|].
  now apply sub_from_marked with (n := length text).
Qed.

Lemma highlight_loop_marked (tokens : list str) :
  (forall token, In token tokens -> ~ In backslash token) ->
  forall text, exists out,
    highlight_loop is_word ci_match tokens text = Ok out /\
    marked_all tokens text out.
Proof.
  induction tokens as [|token tokens IH]; intros H text.
  - exists text. split; [reflexivity | constructor].
  - destruct (highlight_token_marked text token) as [mid [E Hm]];
      [apply H; now left|].
    destruct (IH (fun t Ht => H t (or_intror Ht)) mid) as [out [E' Hall]].
    exists out. split.
    + cbn [highlight_loop]. rewrite E. exact E'.
    + econstructor; eassumption.
Qed.

(** Marking does not shorten a text. *)
Lemma length_replacement (token : str) :
  length (replacement token) = length token + 4.
Proof. unfold replacement. rewrite !length_app. simpl. lia. Qed.

Lemma marked_length (token : str) (prev : option char) (s out : str) :
  marked token prev s out -> length s <= length out.
Proof.
  induction 1 as [| ? ? ? ? _ _ IH | prev c occ rest out [Hf _] _ IH | | ? ? ? ? _ _ IH].
  - reflexivity.
  - simpl. lia.
  - apply Forall2_length in Hf.
    rewrite !length_app, length_replacement. lia.
  - simpl. lia.
  - rewrite length_app, length_replacement. simpl in *. lia.
Qed.

Lemma marked_all_length (tokens : list str) (text out : str) :
  marked_all tokens text out -> length text <= length out.
Proof.
  induction 1 as [|? ? ? ? ? Hm _ IH]; [lia|].
  apply marked_length in Hm. lia.
Qed.

(** A text that is, as a whole, one occurrence of a token becomes the
    token between the markers: the spelling of the token list, not the
    spelling of the text. *)
Lemma whole_text_occurrence (text token : str) :
  ~ In backslash token -> token <> [] ->
  occurrence token None text [] ->
  highlight_tokens is_word ci_match text [token] = Ok (replacement token).
Proof.
  intros Hb Hne Hocc.
  unfold highlight_tokens. cbn [sorted_desc fold_right insert_desc highlight_loop].
  unfold highlight_token, re_sub.
  rewrite (parse_template_plain _ (replacement_no_backslash token Hb)). cbn [bind].
  assert (match_here is_word ci_match (pattern token) None text = Some text) as E
    by (apply match_here_occurrence; exists []; now rewrite app_nil_r).
  destruct Hocc as [Hf _].
  destruct token as [|p token]; [contradiction|].
  inversion Hf as [|? c ? m _ Hf']; subst.
  cbn [sub_from]. rewrite E, expand_plain.
  rewrite <- (app_nil_r m) at 2. rewrite sub_from_skip.
  cbn [sub_from pattern app map match_here].
  destruct (at_boundary is_word (last_char (Some c) m) []); now rewrite ?app_nil_r.
Qed.

(** C2, as the code has it.  For tokens without a backslash,
    [highlight_tokens] raises nothing, and its result is the text in
    which, token after token from the longest on, every occurrence the
    scan meets (case-insensitive, between word boundaries) is replaced
    by the token as the token list spells it, between two [**]; the
    casing of the occurrence itself is not kept.  So a text that is as
    a whole an occurrence of the token becomes the token between the
    markers. *)
Theorem occurrences_replaced_by_listed_token (text : str) (tokens : list str) :
  (forall token, In token tokens -> ~ In backslash token) ->
  (exists out,
      highlight_tokens is_word ci_match text tokens = Ok out /\
      marked_all (sorted_desc len_le tokens) text out) /\
  (forall token, tokens = [token] -> token <> [] ->
      occurrence token None text [] ->
      highlight_tokens is_word ci_match text tokens = Ok (replacement token)).
Proof.
  intro H. split.
  - unfold highlight_tokens. apply highlight_loop_marked.
    intros token Hin. apply H.
    now apply (Permutation_in _ (sorted_desc_perm len_le tokens)).
  - intros token -> Hne Hocc. apply whole_text_occurrence; auto.
    apply H. now left.
Qed.

(** [highlight_tokens] does not shorten the text when no token has a
    backslash. *)
Lemma highlight_tokens_length (text : str) (tokens : list str) :
  (forall token, In token tokens -> ~ In backslash token) ->
  exists out, highlight_tokens is_word ci_match text tokens = Ok out /\
              length text <= length out.
Proof.
  intro H. unfold highlight_tokens.
  destruct (highlight_loop_marked (sorted_desc len_le tokens)) with (text := text)
    as [out [E Hm]].
  - intros token Hin. apply H.
    now apply (Permutation_in _ (sorted_desc_perm len_le tokens)).
  - exists out. split; [exact E | now apply marked_all_length in Hm].
Qed.

End HighlightFacts.

(** ** analyze_tweet *)

Section AnalyzeFacts.
Variable lower : str -> str.
Variable uniform : nat -> Q -> Q -> Q.
Variable is_word : char -> bool.
Variable ci_match : char -> char -> bool.

(** No token that [get_important_tokens] returns has a backslash: the
    keywords have none, and a cleaned word is made of letters. *)
Lemma returned_tokens_no_backslash (text : str) (lang : lang_tokens) (threshold : Q)
    (token : str) :
  lang = en_tokens \/ lang = es_tokens ->
  In token (select_tokens (fst (token_scores uniform (lower text) lang)) threshold) ->
  ~ In backslash token.
Proof.
  intros Hlang Hin Hb. apply select_tokens_In in Hin.
  apply token_scores_keys in Hin as [Hkw|[word [_ ->]]].
  - assert (forallb (forallb not_backslash)
              (high_importance lang ++ medium_importance lang ++ sexist_indicators lang)
            = true) as Hall by (destruct Hlang as [-> | ->]; reflexivity).
    rewrite forallb_forall in Hall. specialize (Hall _ Hkw).
    rewrite forallb_forall in Hall. specialize (Hall _ Hb). discriminate.
  - apply clean_chars in Hb as [_ Hletter]. discriminate.
Qed.

(** C4. For a supported language, [get_important_tokens] returns a list
    of at most 10 tokens, whatever the text and the threshold are; and
    [analyze_tweet] returns a result whose 'important_tokens' field is
    the list for the default threshold, so has at most 10 tokens, which
    'num_important_tokens' counts. *)
Theorem at_most_ten_tokens (text language : str) (threshold : Q) :
  supported language ->
  (exists tokens,
      get_important_tokens lower uniform text language threshold = Ok tokens /\
      length tokens <= 10) /\
  (exists r,
      analyze_tweet lower uniform is_word ci_match text language = Ok r /\
      get_important_tokens lower uniform text language default_threshold
        = Ok (important_tokens_found r) /\
      length (important_tokens_found r) <= 10 /\
      num_important_tokens r = length (important_tokens_found r)).
Proof.
  intro H. destruct (subscript_supported language H) as [lang [E Hlang]].
  unfold analyze_tweet, get_important_tokens. rewrite E. cbn [bind]. split.
  - eexists. split; [reflexivity | apply select_tokens_length].
  - set (tokens := select_tokens _ default_threshold).
    destruct (highlight_tokens_length is_word ci_match text tokens) as [out [Eh _]].
    { intros token Hin. now apply returned_tokens_no_backslash in Hin. }
    rewrite Eh. cbn [bind]. eexists. split; [reflexivity|]. simpl.
    split; [reflexivity|]. split; [apply select_tokens_length | reflexivity].
Qed.

End AnalyzeFacts.

(** * The model on concrete inputs *)

Lemma uniform_seq_in_range (n : nat) (lo hi : Q) :
  (lo <= hi)%Q -> (lo <= uniform_seq n lo hi <= hi)%Q.
Proof.
  intro H. unfold uniform_seq.
  set (q := (1 # Pos.of_nat (n + 2))%Q).
  assert (0 <= q <= 1)%Q as Hq.
  { unfold q, Qle. simpl. lia. }
  assert (0 <= (hi - lo) * q)%Q by (apply Qmult_le_0_compat; lra).
  assert ((hi - lo) * q <= (hi - lo) * 1)%Q.
  { rewrite !(Qmult_comm (hi - lo)). apply Qmult_le_compat_r; lra. }
  lra.
Qed.

Lemma lower_ascii_on_ascii (s : str) :
  forallb is_ascii s = true -> lower_ascii s = lower_ascii s.
Proof. reflexivity. Qed.

Lemma lower_ascii_leaves_no_upper (s : str) (c : char) :
  In c (lower_ascii s) -> is_ascii_upper c = false.
Proof.
  unfold lower_ascii. intro H. apply in_map_iff in H as [c' [<- _]].
  apply ascii_lower_is_lower.
Qed.

(** ** Scenarios *)

Example highlight_kitchen :
  highlight_tokens is_word_ascii ci_match_ascii
    (py "She works in the kitchen") [py "kitchen"]
  = Ok (py "She works in the **kitchen**").
Proof. reflexivity. Qed.

(** The longest token is marked first; a shorter one is then found
    inside what the longer one left. *)
Example highlight_longest_first :
  highlight_tokens is_word_ascii ci_match_ascii
    (py "She is in the kitchen sink") [py "kitchen"; py "kitchen sink"; py "she"]
  = Ok (py "**she** is in the ****kitchen** sink**").
Proof. reflexivity. Qed.

(** The empty token is found at every word boundary. *)
Example highlight_empty_token :
  highlight_tokens is_word_ascii ci_match_ascii (py "ab, cd") [[]]
  = Ok (py "****ab****, ****cd****").
Proof. reflexivity. Qed.

(** A token that is a bad escape in a template makes [re.sub] raise,
    whatever the text is. *)
Example highlight_bad_escape :
  highlight_tokens is_word_ascii ci_match_ascii (py "x") [[backslash; 100%N]]
  = Raise TemplateError.
Proof. reflexivity. Qed.

Example highlight_no_token (is_word : char -> bool) (ci_match : char -> char -> bool)
    (text : str) :
  highlight_tokens is_word ci_match text [] = Ok text.
Proof. reflexivity. Qed.

(** No keyword in the text: the first five words, cleaned, are scored. *)
Example fallback_words :
  get_important_tokens lower_ascii uniform_seq (py "xyzzy plugh quux") (py "en")
    default_threshold
  = Ok [py "xyzzy"; py "plugh"; py "quux"].
Proof. vm_compute. reflexivity. Qed.

Example fallback_cleans_words :
  fst (token_scores uniform_seq (lower_ascii (py "Hi, it's 42 o'clock!!")) en_tokens)
  = [(py "its", uniform_seq 0 0.1 0.4); (py "oclock", uniform_seq 1 0.1 0.4)].
Proof. vm_compute. reflexivity. Qed.

(** ** C1 *)

Lemma unsupported_language_raises_fr :
  ~ supported (py "fr") /\
  get_important_tokens lower_ascii uniform_seq (py "Bonjour") (py "fr") default_threshold
    = Raise (KeyError (py "fr")) /\
  analyze_tweet lower_ascii uniform_seq is_word_ascii ci_match_ascii
    (py "Bonjour") (py "fr") = Raise (KeyError (py "fr")).
Proof.
  assert (~ supported (py "fr")) as H by (intros [H|H]; discriminate H).
  split; [exact H|].
  apply (unsupported_language_raises lower_ascii uniform_seq is_word_ascii ci_match_ascii
           (py "Bonjour") (py "fr") default_threshold H).
Defined.

(** ** C2 *)

(** "Kitchen" is an occurrence of the token 'kitchen', and the result
    is not that occurrence between the markers: it is the token. *)
Lemma casing_of_occurrence_not_kept :
  occurrence is_word_ascii ci_match_ascii (py "kitchen") None (py "Kitchen") [] /\
  highlight_tokens is_word_ascii ci_match_ascii (py "Kitchen") [py "kitchen"]
    = Ok (py "**kitchen**") /\
  highlight_tokens is_word_ascii ci_match_ascii (py "Kitchen") [py "kitchen"]
    <> Ok (py "**" ++ py "Kitchen" ++ py "**").
Proof.
  split; [|split].
  - unfold occurrence. split; [|split]; [|reflexivity|reflexivity].
    repeat constructor.
  - reflexivity.
  - discriminate.
Qed.

Lemma occurrences_replaced_in_kitchen_text :
  (exists out,
      highlight_tokens is_word_ascii ci_match_ascii
        (py "In the Kitchen") [py "kitchen"; py "in"] = Ok out /\
      marked_all is_word_ascii ci_match_ascii
        (sorted_desc len_le [py "kitchen"; py "in"]) (py "In the Kitchen") out) /\
  (forall token, [py "kitchen"; py "in"] = [token] -> token <> [] ->
      occurrence is_word_ascii ci_match_ascii token None (py "In the Kitchen") [] ->
      highlight_tokens is_word_ascii ci_match_ascii
        (py "In the Kitchen") [py "kitchen"; py "in"] = Ok (replacement token)).
Proof.
  apply (occurrences_replaced_by_listed_token is_word_ascii ci_match_ascii
           (py "In the Kitchen") [py "kitchen"; py "in"]).
  intros token [<-|[<-|[]]] H; simpl in H; unfold backslash in H;
    repeat (destruct H as [H|H]; [discriminate H|]); exact H.
Defined.

(** ** C3 *)

(** 'stitute' is a [high_importance] keyword of the text, and the ten
    returned tokens do not include it. *)
Lemma high_keyword_left_out :
  In (py "stitute") (high_importance en_tokens) /\
  contains (py "stitute") (lower_ascii crowded_text) = true /\
  get_important_tokens lower_ascii uniform_seq crowded_text (py "en") default_threshold
    = Ok (map py ["slut"; "women"; "girls"; "fem"; "wife"; "scholar"; "woman";
                  "onde"; "ches"; "teaching"]%string) /\
  ~ In (py "stitute")
      (map py ["slut"; "women"; "girls"; "fem"; "wife"; "scholar"; "woman";
               "onde"; "ches"; "teaching"]%string).
Proof.
  split; [|split; [|split]].
  - simpl. tauto.
  - reflexivity.
  - vm_compute. reflexivity.
  - simpl. intro H. repeat (destruct H as [H|H]; [discriminate H|]). exact H.
Qed.

Lemma women_is_selected :
  exists tokens,
    get_important_tokens lower_ascii uniform_seq (py "Women") (py "en") default_threshold
      = Ok tokens /\
    (In (py "women") tokens \/ length tokens = 10).
Proof.
  apply (high_importance_keyword_selected_or_list_full lower_ascii uniform_seq
           uniform_seq_in_range (py "Women") (py "en") (py "women") en_tokens).
  - reflexivity.
  - simpl. tauto.
  - reflexivity.
Defined.

(** ** C5 *)

(** 'mach' stands twice in the Spanish [high_importance] list: on the
    text "macho" it is scored twice, and the second draw is its score. *)
Lemma keyword_listed_twice_is_scored_twice :
  token_scores uniform_seq (lower_ascii (py "macho")) es_tokens
    = ([(py "mach", uniform_seq 1 0.8 1.0)], 2) /\
  ~ scored_at_most_once (token_scores uniform_seq (lower_ascii (py "macho")) es_tokens).
Proof.
  split.
  - vm_compute. reflexivity.
  - unfold scored_at_most_once.
    replace (token_scores uniform_seq (lower_ascii (py "macho")) es_tokens)
      with ([(py "mach", uniform_seq 1 0.8 1.0)], 2) by (vm_compute; reflexivity).
    simpl. lia.
Qed.

Lemma no_rescoring_on_wife_text :
  exists lang tokens,
    subscript important_tokens (py "en") = Ok lang /\
    get_important_tokens lower_ascii uniform_seq (py "My wife") (py "en") default_threshold
      = Ok tokens /\
    NoDup tokens /\
    NoDup (keys (fst (token_scores uniform_seq (lower_ascii (py "My wife")) lang))) /\
    (forall token,
        dict_mem token (fst (high_scores uniform_seq (lower_ascii (py "My wife")) lang))
          = true ->
        dict_get token (fst (token_scores uniform_seq (lower_ascii (py "My wife")) lang))
          = dict_get token (fst (high_scores uniform_seq (lower_ascii (py "My wife")) lang))) /\
    (forall token,
        dict_mem token (fst (medium_scores uniform_seq (lower_ascii (py "My wife")) lang))
          = true ->
        dict_get token (fst (token_scores uniform_seq (lower_ascii (py "My wife")) lang))
          = dict_get token
              (fst (medium_scores uniform_seq (lower_ascii (py "My wife")) lang))).
Proof.
  apply (no_rescoring_across_lists_no_duplicates lower_ascii uniform_seq
           (py "My wife") (py "en") default_threshold).
  left. reflexivity.
Defined.

(** ** C4, C6, C8, C9, C10 *)

Lemma at_most_ten_tokens_crowded :
  supported (py "en") /\
  (exists tokens,
      get_important_tokens lower_ascii uniform_seq crowded_text (py "en") (1 # 1)
        = Ok tokens /\
      length tokens <= 10) /\
  (exists r,
      analyze_tweet lower_ascii uniform_seq is_word_ascii ci_match_ascii
        crowded_text (py "en") = Ok r /\
      get_important_tokens lower_ascii uniform_seq crowded_text (py "en") default_threshold
        = Ok (important_tokens_found r) /\
      length (important_tokens_found r) <= 10 /\
      num_important_tokens r = length (important_tokens_found r)).
Proof.
  assert (supported (py "en")) as H by (left; reflexivity).
  split; [exact H|].
  apply (at_most_ten_tokens lower_ascii uniform_seq is_word_ascii ci_match_ascii
           crowded_text (py "en") (1 # 1) H).
Defined.

Lemma kitchen_is_selected_by_default :
  exists score,
    fst (token_scores uniform_seq (lower_ascii kitchen_text) en_tokens)
      = [(py "kitchen", score)] /\
    (0.7 <= score <= 0.95)%Q /\
    get_important_tokens lower_ascii uniform_seq kitchen_text (py "en") default_threshold
      = Ok [py "kitchen"].
Proof.
  apply (kitchen_is_selected lower_ascii uniform_seq lower_ascii_on_ascii
           uniform_seq_in_range default_threshold).
Defined.

Lemma empty_text_gives_no_tokens_by_default :
  get_important_tokens lower_ascii uniform_seq [] (py "en") default_threshold = Ok [] /\
  fst (token_scores uniform_seq (lower_ascii []) en_tokens) = [].
Proof.
  apply (empty_text_gives_no_tokens lower_ascii uniform_seq lower_ascii_on_ascii
           default_threshold).
Defined.

Lemma no_uppercase_in_tokens_of_shouted_text :
  supported (py "en") /\
  exists tokens,
    get_important_tokens lower_ascii uniform_seq (py "WOMEN In The KITCHEN") (py "en")
      default_threshold = Ok tokens /\
    forall token, In token tokens -> no_uppercase token.
Proof.
  assert (supported (py "en")) as H by (left; reflexivity).
  split; [exact H|].
  apply (returned_tokens_have_no_uppercase lower_ascii uniform_seq
           lower_ascii_leaves_no_upper (py "WOMEN In The KITCHEN") (py "en")
           default_threshold H).
Defined.

Lemma first_token_of_women_text :
  exists token rest score,
    get_important_tokens lower_ascii uniform_seq (py "Women and men") (py "en") (0 # 1)
      = Ok (token :: rest) /\
    In (token, score)
       (fst (token_scores uniform_seq (lower_ascii (py "Women and men")) en_tokens)) /\
    forall token' score',
      In (token', score')
         (fst (token_scores uniform_seq (lower_ascii (py "Women and men")) en_tokens)) ->
      (score' <= score)%Q.
Proof.
  apply (first_token_has_greatest_score lower_ascii uniform_seq
           (py "Women and men") (py "en") (0 # 1) en_tokens).
  - reflexivity.
  - vm_compute. discriminate.
Defined.

(** ** C7 *)

(** C7, at the input where the code breaks it.  The replacement
    [**] + token + [**] is a template to [re.sub], which reads two
    backslashes as one: the text of twelve characters comes back with
    eleven.  (For tokens without a backslash the text never gets
    shorter: [highlight_tokens_length].) *)
Lemma backslash_token_shortens_text :
  highlight_tokens is_word_ascii ci_match_ascii backslash_text [backslash_token]
    = Ok (py "a**" ++ repeat backslash 5 ++ py "**a") /\
  length backslash_text = 12 /\
  length (py "a**" ++ repeat backslash 5 ++ py "**a") = 11.
Proof. repeat split. Qed.

(** * Further properties *)

(** ** The order and the extent of the selection *)

Lemma StronglySorted_firstn {A : Type} (R : A -> A -> Prop) (m : nat) (l : list A) :
  StronglySorted R l -> StronglySorted R (firstn m l).
Proof.
  revert l. induction m as [|m IH]; intros [|x l] H; simpl; try constructor.
  - apply IH. now inversion H.
  - inversion H as [|? ? _ Hall]; subst.
    rewrite Forall_forall in *. intros y Hy. apply Hall. now apply In_firstn in Hy.
Qed.

Lemma sorted_scores_descend (scores : dict) :
  scores_descend (sorted_desc score_le scores).
Proof.
  pose proof (sorted_desc_descending score_le score_le_total score_le_trans scores) as H.
  unfold descending in H. unfold scores_descend.
  induction H as [|x l _ IH Hall]; constructor; [assumption|].
  rewrite Forall_forall in *. intros y Hy.
  apply Qle_bool_iff. now apply Hall.
Qed.

Lemma firstn_map {A B : Type} (f : A -> B) (m : nat) (l : list A) :
  firstn m (map f l) = map f (firstn m l).
Proof.
  revert l. induction m as [|m IH]; intros [|x l]; simpl; try reflexivity.
  now rewrite IH.
Qed.

(** With a threshold that is not positive the loop stops behind the
    first token, when no score is negative. *)
Lemma select_nonpositive_threshold (threshold total : Q) (token : str) (score : Q)
    (rest : dict) :
  (threshold <= 0)%Q -> (0 <= score)%Q ->
  select threshold total ((token, score) :: rest) 0 [] = [token].
Proof.
  intros Hth Hs. cbn [select app].
  assert (Qle_bool threshold
            (0 + (if Qlt_bool 0 total then score / total else 0)) = true) as E.
  { apply Qle_bool_iff. unfold Qlt_bool.
    destruct (Qle_bool total 0) eqn:Et; simpl; [lra|].
    assert (0 < total)%Q as Hpos.
    { destruct (Qlt_le_dec 0 total) as [H|H]; [assumption|].
      apply Qle_bool_iff in H. congruence. }
    assert (0 <= score / total)%Q
      by (apply Qle_shift_div_l; [assumption | lra]).
    lra. }
  now rewrite E.
Qed.

(** A greater threshold does not stop the loop earlier. *)
Lemma select_monotone (t1 t2 total : Q) (l : dict) :
  (t1 <= t2)%Q ->
  forall cumulative selected,
  exists m1 m2, m1 <= m2 /\
    select t1 total l cumulative selected = selected ++ firstn m1 (keys l) /\
    select t2 total l cumulative selected = selected ++ firstn m2 (keys l).
Proof.
  intro Hle. induction l as [|[token score] l IH]; intros cumulative selected.
  - exists 0, 0. cbn [select]. rewrite app_nil_r. auto.
  - cbn [select].
    set (cumulative' := (cumulative + (if Qlt_bool 0 total then score / total else 0))%Q).
    set (selected' := selected ++ [token]).
    destruct (Nat.leb 10 (length selected')) eqn:Ecap.
    + rewrite !orb_true_r. exists 1, 1. simpl. destruct (keys l); auto.
    + rewrite !orb_false_r.
      destruct (Qle_bool t2 cumulative') eqn:E2.
      * assert (Qle_bool t1 cumulative' = true) as E1.
        { apply Qle_bool_iff. apply Qle_bool_iff in E2. lra. }
        rewrite E1. exists 1, 1. simpl. destruct (keys l); auto.
      * destruct (IH cumulative' selected') as [m1 [m2 [Hm [H1 H2]]]].
        destruct (Qle_bool t1 cumulative').
        -- exists 1, (S m2). split; [lia|]. split.
           ++ simpl. now destruct (keys l).
           ++ rewrite H2. unfold selected'. simpl. now rewrite <- app_assoc.
        -- exists (S m1), (S m2). split; [lia|]. unfold selected' in *.
           rewrite H1, H2. simpl. now rewrite <- !app_assoc.
Qed.

Lemma firstn_firstn_le {A : Type} (m1 m2 : nat) (l : list A) :
  m1 <= m2 -> firstn m1 l = firstn (length (firstn m1 l)) (firstn m2 l).
Proof.
  revert m2 l. induction m1 as [|m1 IH]; intros m2 l H; [reflexivity|].
  destruct m2 as [|m2]; [lia|]. destruct l as [|x l]; [reflexivity|].
  simpl. f_equal. apply IH. lia.
Qed.

Section SelectionFacts.
Variable lower : str -> str.
Variable uniform : nat -> Q -> Q -> Q.

(** X1. The returned tokens are scored tokens in descending order of
    score: the list is the list of the tokens of some entries of
    [token_scores], each with its score, in which no entry has a greater
    score than an entry before it. *)
Theorem returned_tokens_descend_in_score (text language : str) (threshold : Q)
    (lang : lang_tokens) :
  subscript important_tokens language = Ok lang ->
  exists scored,
    get_important_tokens lower uniform text language threshold = Ok (keys scored) /\
    incl scored (fst (token_scores uniform (lower text) lang)) /\
    scores_descend scored.
Proof.
  intro E. unfold get_important_tokens. rewrite E. cbn [bind].
  set (scores := fst (token_scores uniform (lower text) lang)).
  destruct (select_tokens_prefix scores threshold) as [m [_ ->]].
  exists (firstn m (sorted_desc score_le scores)). split; [|split].
  - unfold keys. now rewrite firstn_map.
  - intros x Hx. apply In_firstn in Hx.
    now apply (Permutation_in _ (sorted_desc_perm score_le scores)).
  - apply StronglySorted_firstn. apply sorted_scores_descend.
Qed.

(** X2. For the same scores, a greater threshold returns at least as
    much: the list for the smaller threshold is a prefix of the list for
    the greater one. *)
Theorem greater_threshold_extends_selection (text language : str) (t1 t2 : Q)
    (lang : lang_tokens) :
  subscript important_tokens language = Ok lang ->
  (t1 <= t2)%Q ->
  exists tokens1 tokens2,
    get_important_tokens lower uniform text language t1 = Ok tokens1 /\
    get_important_tokens lower uniform text language t2 = Ok tokens2 /\
    tokens1 = firstn (length tokens1) tokens2.
Proof.
  intros E Hle. unfold get_important_tokens. rewrite E. cbn [bind].
  do 2 eexists. split; [reflexivity|]. split; [reflexivity|].
  unfold select_tokens.
  set (sorted_tokens := sorted_desc score_le _).
  destruct (select_monotone t1 t2 (total_importance sorted_tokens) sorted_tokens Hle 0%Q [])
    as [m1 [m2 [Hm [-> ->]]]].
  simpl. now apply firstn_firstn_le.
Qed.

Hypothesis uniform_in_range :
  forall n lo hi, (lo <= hi)%Q -> (lo <= uniform n lo hi <= hi)%Q.

(** X3. With a threshold of 0 or less, exactly one token is returned
    when any token has a score: the loop stops behind the first token. *)
Theorem nonpositive_threshold_returns_one_token (text language : str) (threshold : Q)
    (lang : lang_tokens) :
  subscript important_tokens language = Ok lang ->
  (threshold <= 0)%Q ->
  fst (token_scores uniform (lower text) lang) <> [] ->
  exists token,
    get_important_tokens lower uniform text language threshold = Ok [token].
Proof.
  intros E Hth Hne. unfold get_important_tokens. rewrite E. cbn [bind].
  pose proof (token_scores_range uniform (lower text) lang uniform_in_range) as Hrange.
  set (scores := fst (token_scores uniform (lower text) lang)) in *.
  unfold select_tokens.
  pose proof (sorted_desc_perm score_le scores) as Hperm.
  destruct (sorted_desc score_le scores) as [|[token score] rest].
  - apply Permutation_nil in Hperm. contradiction.
  - exists token. f_equal. apply select_nonpositive_threshold; [assumption|].
    assert (In (token, score) scores) as Hin
      by (apply (Permutation_in _ Hperm); now left).
    apply Hrange in Hin. lra.
Qed.

End SelectionFacts.

(** ** Which tokens get a score, and which score *)

Lemma dict_mem_dict_set (k token : str) (v : Q) (d : dict) :
  dict_mem token d = true -> dict_mem token (dict_set k v d) = true.
Proof.
  intro H. apply dict_mem_In, In_keys_dict_set. right. now apply dict_mem_In.
Qed.

Lemma dict_mem_dict_set_same (k : str) (v : Q) (d : dict) :
  dict_mem k (dict_set k v d) = true.
Proof. apply dict_mem_In, In_keys_dict_set. now left. Qed.

Section ScoredTokens.
Variable uniform : nat -> Q -> Q -> Q.
Variable text_lower : str.
Variable lang : lang_tokens.

(** A scored token stays scored through a guarded loop, and the loop
    scores every keyword of its list that is in the text. *)
Lemma fold_score_unscored_mem (lo hi : Q) (token : str) (l : list str) :
  forall st,
  dict_mem token (fst st) = true \/ (In token l /\ contains token text_lower = true) ->
  dict_mem token (fst (fold_left (score_unscored uniform lo hi text_lower) l st)) = true.
Proof.
  induction l as [|tok l IH]; intros st H; simpl.
  - destruct H as [H|[[] _]]. exact H.
  - apply IH. unfold score_unscored.
    destruct H as [H|[[->|H] Hc]].
    + left. destruct (contains tok text_lower && negb (dict_mem tok (fst st)));
        [now apply dict_mem_dict_set | exact H].
    + left. rewrite Hc. destruct (dict_mem token (fst st)) eqn:E; simpl;
        [exact E | apply dict_mem_dict_set_same].
    + right. auto.
Qed.

Lemma keyword_scores_keys (token : str) :
  In token (keys (fst (keyword_scores uniform text_lower lang))) <->
  In token (keywords lang) /\ contains token text_lower = true.
Proof.
  split.
  - revert token.
    apply keyword_scores_invariant with
      (P := fun st => forall token, In token (keys (fst st)) ->
         In token (keywords lang) /\ contains token text_lower = true);
      unfold keywords.
    + intros token [].
    + intros st tok Hin Hc IH token H. simpl in H.
      apply In_keys_dict_set in H as [->|H]; [|now apply IH].
      rewrite !in_app_iff. auto.
    + intros st tok Hin Hc _ IH token H. simpl in H.
      apply In_keys_dict_set in H as [->|H]; [|now apply IH].
      rewrite !in_app_iff. auto.
    + intros st tok Hin Hc _ IH token H. simpl in H.
      apply In_keys_dict_set in H as [->|H]; [|now apply IH].
      rewrite !in_app_iff. auto.
  - intros [Hin Hc]. apply dict_mem_In.
    unfold keywords in Hin. rewrite !in_app_iff in Hin.
    unfold keyword_scores, medium_scores.
    apply fold_score_unscored_mem.
    destruct Hin as [Hin|[Hin|Hin]]; [left | left | right; auto].
    + apply fold_score_unscored_mem. left.
      apply fold_score_high_mem; auto.
    + apply fold_score_unscored_mem. right. auto.
Qed.

(** Without a keyword in the text the keyword loops draw nothing. *)
Lemma keyword_scores_none :
  (forall k, In k (keywords lang) -> contains k text_lower = false) ->
  keyword_scores uniform text_lower lang = ([], 0).
Proof.
  intro H.
  apply keyword_scores_invariant with (P := fun st => st = ([], 0));
    try reflexivity; unfold keywords in H.
  - intros st tok Hin Hc _. rewrite H in Hc; [discriminate|].
    rewrite !in_app_iff. auto.
  - intros st tok Hin Hc _ _. rewrite H in Hc; [discriminate|].
    rewrite !in_app_iff. auto.
  - intros st tok Hin Hc _ _. rewrite H in Hc; [discriminate|].
    rewrite !in_app_iff. auto.
Qed.

(** The keys the fallback loop adds. *)
Lemma fold_score_word_keys (token : str) (words : list str) :
  forall st,
  In token (keys (fst (fold_left (score_word uniform) words st))) <->
  In token (keys (fst st)) \/
  exists word, In word words /\ token = clean word /\ 2 < length token.
Proof.
  induction words as [|w words IH]; intro st; simpl.
  - split; [now left | intros [H|[word [[] _]]]; exact H].
  - rewrite IH. unfold score_word.
    destruct (Nat.ltb 2 (length (clean w))) eqn:E.
    + apply Nat.ltb_lt in E. cbn [assign_score fst]. rewrite In_keys_dict_set.
      split.
      * intros [[->|H]|[word [Hw Hrest]]]; [right | now left | right].
        -- exists w. auto.
        -- exists word. auto.
      * intros [H|[word [[<-|Hw] [-> Hlen]]]]; [left; now right | left; now left | right].
        exists word. auto.
    + apply Nat.ltb_ge in E. split.
      * intros [H|[word [Hw Hrest]]]; [now left | right]. exists word. auto.
      * intros [H|[word [[<-|Hw] [-> Hlen]]]]; [now left | lia | right].
        exists word. auto.
Qed.

Lemma fold_score_word_length (words : list str) :
  forall st,
  length (fst (fold_left (score_word uniform) words st))
  <= length (fst st) + length words.
Proof.
  induction words as [|w words IH]; intro st; simpl; [lia|].
  eapply Nat.le_trans; [apply IH|].
  unfold score_word. destruct (Nat.ltb 2 (length (clean w))); [|lia].
  cbn [assign_score fst].
  assert (length (keys (dict_set (clean w) (uniform (snd st) 0.1 0.4) (fst st)))
          <= S (length (keys (fst st)))) as Hk.
  { rewrite keys_dict_set. destruct (dict_mem (clean w) (fst st)); [lia|].
    rewrite length_app. simpl. lia. }
  unfold keys in Hk. rewrite !length_map in Hk.
  apply Nat.le_trans with (S (length (fst st)) + length words); [|lia].
  apply Nat.add_le_mono_r. exact Hk.
Qed.

Lemma firstn_length_le_5 {A : Type} (l : list A) : length (firstn 5 l) <= 5.
Proof. rewrite length_firstn. lia. Qed.

(** With a keyword in the text, the scored tokens are the keywords in
    the text. *)
Lemma token_scores_keys_hit (keyword token : str) :
  In keyword (keywords lang) -> contains keyword text_lower = true ->
  In token (keys (fst (token_scores uniform text_lower lang))) <->
  In token (keywords lang) /\ contains token text_lower = true.
Proof.
  intros Hin Hc.
  assert (dict_mem keyword (fst (keyword_scores uniform text_lower lang)) = true) as Hm
    by (apply dict_mem_In, keyword_scores_keys; auto).
  rewrite (token_scores_keyword uniform text_lower lang keyword Hm).
  apply keyword_scores_keys.
Qed.

(** Without one, they are the cleaned words of more than two letters
    among the first five words. *)
Lemma token_scores_fallback :
  (forall k, In k (keywords lang) -> contains k text_lower = false) ->
  token_scores uniform text_lower lang
  = fold_left (score_word uniform) (firstn 5 (split text_lower)) ([], 0).
Proof.
  intro H. unfold token_scores. now rewrite (keyword_scores_none H).
Qed.

End ScoredTokens.

Section ScoredTokenFacts.
Variable lower : str -> str.
Variable uniform : nat -> Q -> Q -> Q.

(** X4. When a keyword of the language is in the lowercased text, the
    tokens that get a score are exactly the keywords of the three lists
    that are in the lowercased text (as substrings, also inside a
    word); every returned token is one of them, and no word of the
    fallback is. *)
Theorem keyword_hit_scores_keywords_in_text (text language keyword : str)
    (threshold : Q) (lang : lang_tokens) :
  subscript important_tokens language = Ok lang ->
  In keyword (keywords lang) ->
  contains keyword (lower text) = true ->
  (forall token,
      In token (keys (fst (token_scores uniform (lower text) lang))) <->
      In token (keywords lang) /\ contains token (lower text) = true) /\
  exists tokens,
    get_important_tokens lower uniform text language threshold = Ok tokens /\
    forall token, In token tokens ->
      In token (keywords lang) /\ contains token (lower text) = true.
Proof.
  intros E Hin Hc. split.
  - intro token. now apply token_scores_keys_hit with keyword.
  - unfold get_important_tokens. rewrite E. cbn [bind].
    eexists. split; [reflexivity|].
    intros token H. apply select_tokens_In in H.
    now apply (token_scores_keys_hit uniform (lower text) lang keyword token Hin Hc).
Qed.

(** X5. When no keyword of the language is in the lowercased text, the
    tokens that get a score are the cleaned words of more than two
    letters among the first five whitespace-separated words; at most
    five tokens are returned, each of them such a cleaned word. *)
Theorem no_keyword_scores_first_five_words (text language : str) (threshold : Q)
    (lang : lang_tokens) :
  subscript important_tokens language = Ok lang ->
  (forall k, In k (keywords lang) -> contains k (lower text) = false) ->
  (forall token,
      In token (keys (fst (token_scores uniform (lower text) lang))) <->
      exists word, In word (firstn 5 (split (lower text))) /\
                   token = clean word /\ 2 < length token) /\
  exists tokens,
    get_important_tokens lower uniform text language threshold = Ok tokens /\
    length tokens <= 5 /\
    forall token, In token tokens ->
      exists word, In word (firstn 5 (split (lower text))) /\
                   token = clean word /\ 2 < length token.
Proof.
  intros E Hnone.
  pose proof (token_scores_fallback uniform (lower text) lang Hnone) as Efb.
  assert (forall token,
            In token (keys (fst (token_scores uniform (lower text) lang))) <->
            exists word, In word (firstn 5 (split (lower text))) /\
                         token = clean word /\ 2 < length token) as Hkeys.
  { intro token. rewrite Efb, fold_score_word_keys. simpl. tauto. }
  split; [exact Hkeys|].
  unfold get_important_tokens. rewrite E. cbn [bind].
  eexists. split; [reflexivity|]. split.
  - destruct (select_tokens_prefix (fst (token_scores uniform (lower text) lang)) threshold)
      as [m [_ ->]].
    rewrite length_firstn.
    apply Nat.le_trans with (length (keys (sorted_desc score_le
                               (fst (token_scores uniform (lower text) lang)))));
      [apply Nat.le_min_r|].
    unfold keys. rewrite length_map.
    rewrite (Permutation_length (sorted_desc_perm score_le _)).
    rewrite Efb.
    eapply Nat.le_trans; [apply fold_score_word_length|].
    simpl. apply firstn_length_le_5.
  - intros token H. apply select_tokens_In in H. now apply Hkeys.
Qed.

(** X6. The returned list is empty exactly when there is nothing to
    score: no keyword of the language is in the lowercased text, and
    each of the first five words has at most two letters left when
    cleaned. *)
Theorem empty_result_iff_nothing_to_score (text language : str) (threshold : Q)
    (lang : lang_tokens) :
  subscript important_tokens language = Ok lang ->
  (get_important_tokens lower uniform text language threshold = Ok [] <->
   (forall k, In k (keywords lang) -> contains k (lower text) = false) /\
   (forall word, In word (firstn 5 (split (lower text))) -> length (clean word) <= 2)).
Proof.
  intro E. unfold get_important_tokens. rewrite E. cbn [bind].
  set (scores := fst (token_scores uniform (lower text) lang)).
  assert (select_tokens scores threshold = [] <-> scores = []) as Hempty.
  { split.
    - intro H. destruct scores as [|x scores'] eqn:Es; [reflexivity|].
      destruct (select_tokens_prefix (x :: scores') threshold) as [m [Hm Hsel]].
      rewrite H in Hsel.
      assert (1 <= m) as Hm' by (apply Hm; discriminate).
      pose proof (sorted_desc_perm score_le (x :: scores')) as Hp.
      destruct (sorted_desc score_le (x :: scores')) as [|y l].
      + apply Permutation_nil in Hp. discriminate.
      + destruct m; [lia | discriminate].
    - intros ->. reflexivity. }
  split.
  - intro H. injection H as H. apply Hempty in H.
    assert (forall k, In k (keywords lang) -> contains k (lower text) = false) as Hnone.
    { intros k Hk. destruct (contains k (lower text)) eqn:Ec; [|reflexivity].
      assert (In k (keys scores)) as Hin
        by (apply (token_scores_keys_hit uniform (lower text) lang k k Hk Ec); auto).
      rewrite H in Hin. contradiction. }
    split; [exact Hnone|].
    intros word Hw. destruct (Nat.le_gt_cases (length (clean word)) 2) as [Hle|Hgt];
      [exact Hle|].
    assert (In (clean word) (keys scores)) as Hin.
    { unfold scores. rewrite (token_scores_fallback uniform (lower text) lang Hnone).
      apply fold_score_word_keys. right. exists word. auto. }
    rewrite H in Hin. contradiction.
  - intros [Hnone Hshort]. f_equal. apply Hempty.
    destruct scores as [|[k v] scores'] eqn:Es; [reflexivity|].
    assert (In k (keys scores)) as Hin by (rewrite Es; now left).
    unfold scores in Hin.
    rewrite (token_scores_fallback uniform (lower text) lang Hnone) in Hin.
    apply fold_score_word_keys in Hin as [[]|[word [Hw [-> Hlen]]]].
    specialize (Hshort word Hw). lia.
Qed.

End ScoredTokenFacts.

(** ** The interval of a score *)

Section Buckets.
Variable uniform : nat -> Q -> Q -> Q.
Variable text_lower : str.
Variable lang : lang_tokens.
Hypothesis uniform_in_range :
  forall n lo hi, (lo <= hi)%Q -> (lo <= uniform n lo hi <= hi)%Q.

(** A guarded loop keeps the tokens [seen] before it in the dict and a
    property [B] of the entries, when the entries it adds (for tokens
    not seen before) have the property. *)
Lemma guarded_loop_entries (lo hi : Q) (l : list str)
    (seen : str -> Prop) (B : str -> Q -> Prop) :
  (forall tok n, In tok l -> contains tok text_lower = true -> ~ seen tok ->
     B tok (uniform n lo hi)) ->
  forall st,
  (forall t, seen t -> dict_mem t (fst st) = true) ->
  (forall t s, In (t, s) (fst st) -> B t s) ->
  forall t s,
  In (t, s) (fst (fold_left (score_unscored uniform lo hi text_lower) l st)) -> B t s.
Proof.
  intros Hnew st Hseen HB.
  apply (fold_left_invariant (score_unscored uniform lo hi text_lower)
           (fun st => (forall t, seen t -> dict_mem t (fst st) = true) /\
                      (forall t s, In (t, s) (fst st) -> B t s))); [|auto].
  intros st' tok Hin [Hs Hb]. unfold score_unscored.
  destruct (contains tok text_lower) eqn:Ec; simpl; [|auto].
  destruct (dict_mem tok (fst st')) eqn:Em; simpl; [auto|].
  split.
  - intros t Ht. apply dict_mem_dict_set. auto.
  - intros t s H. apply In_dict_set in H as [[-> ->]|H]; [|auto].
    apply Hnew; auto. intro Hseen'. apply Hs in Hseen'. congruence.
Qed.

Lemma high_scores_entries (t : str) (s : Q) :
  In (t, s) (fst (high_scores uniform text_lower lang)) ->
  In t (high_importance lang) /\ contains t text_lower = true /\ (0.8 <= s <= 1.0)%Q.
Proof.
  revert t s. unfold high_scores.
  apply (fold_left_invariant (score_high uniform text_lower)
           (fun st => forall t s, In (t, s) (fst st) ->
              In t (high_importance lang) /\ contains t text_lower = true /\
              (0.8 <= s <= 1.0)%Q)).
  - intros st tok Hin IH t s. unfold score_high.
    destruct (contains tok text_lower) eqn:Ec; [|apply IH].
    intro H. simpl in H. apply In_dict_set in H as [[-> ->]|H]; [|now apply IH].
    repeat split; try assumption; apply uniform_in_range; lra.
  - intros t s [].
Qed.

Lemma keyword_scores_buckets (t : str) (s : Q) :
  In (t, s) (fst (keyword_scores uniform text_lower lang)) ->
  in_bucket text_lower lang t s.
Proof.
  unfold keyword_scores.
  apply guarded_loop_entries with
    (seen := fun k => (In k (high_importance lang) \/ In k (medium_importance lang))
                      /\ contains k text_lower = true).
  - intros tok n Hin Hc Hseen. right. right. left.
    repeat split; try assumption; try (apply uniform_in_range; lra); intro; apply Hseen; auto.
  - intros k [[Hk|Hk] Hc]; unfold medium_scores; apply fold_score_unscored_mem.
    + left. apply fold_score_high_mem; auto.
    + right. auto.
  - unfold medium_scores.
    apply guarded_loop_entries with
      (seen := fun k => In k (high_importance lang) /\ contains k text_lower = true).
    + intros tok n Hin Hc Hseen. right. left.
      repeat split; try assumption; try (apply uniform_in_range; lra); intro; apply Hseen; auto.
    + intros k [Hk Hc]. apply fold_score_high_mem; auto.
    + intros t' s' H. left. now apply high_scores_entries.
Qed.

Lemma token_scores_buckets (t : str) (s : Q) :
  In (t, s) (fst (token_scores uniform text_lower lang)) ->
  in_bucket text_lower lang t s.
Proof.
  unfold token_scores.
  destruct (fst (keyword_scores uniform text_lower lang)) as [|e d] eqn:Ek.
  - assert (forall k, In k (keywords lang) -> contains k text_lower = false) as Hnone.
    { intros k Hk. destruct (contains k text_lower) eqn:Ec; [|reflexivity].
      assert (In k (keys (fst (keyword_scores uniform text_lower lang)))) as Hin
        by (apply keyword_scores_keys; auto).
      rewrite Ek in Hin. contradiction. }
    revert t s.
    apply (fold_left_invariant (score_word uniform)
             (fun st => forall t s, In (t, s) (fst st) ->
                in_bucket text_lower lang t s)).
    + intros st word _ IH t s. unfold score_word.
      destruct (Nat.ltb 2 (length (clean word))); [|apply IH].
      intro H. simpl in H. apply In_dict_set in H as [[-> ->]|H]; [|now apply IH].
      right. right. right. split; [exact Hnone | apply uniform_in_range; lra].
    + rewrite Ek. intros t s [].
  - apply keyword_scores_buckets.
Qed.

End Buckets.

Section BucketFacts.
Variable lower : str -> str.
Variable uniform : nat -> Q -> Q -> Q.
Hypothesis uniform_in_range :
  forall n lo hi, (lo <= hi)%Q -> (lo <= uniform n lo hi <= hi)%Q.

(** X7. The score of a token lies in the interval of the first list
    that has the token, for a keyword in the text: [0.8, 1.0] for
    [high_importance], else [0.5, 0.8] for [medium_importance], else
    [0.7, 0.95] for [sexist_indicators]; without a keyword in the text,
    the score of a fallback word lies in [0.1, 0.4].  This holds for
    every scored token, so for every returned one. *)
Theorem scores_lie_in_their_buckets (text language : str) (threshold : Q)
    (lang : lang_tokens) :
  subscript important_tokens language = Ok lang ->
  (forall token score,
      In (token, score) (fst (token_scores uniform (lower text) lang)) ->
      in_bucket (lower text) lang token score) /\
  exists tokens,
    get_important_tokens lower uniform text language threshold = Ok tokens /\
    forall token, In token tokens ->
      exists score,
        dict_get token (fst (token_scores uniform (lower text) lang)) = Some score /\
        in_bucket (lower text) lang token score.
Proof.
  intro E. split.
  - intros token score. now apply token_scores_buckets.
  - unfold get_important_tokens. rewrite E. cbn [bind].
    eexists. split; [reflexivity|].
    intros token H. apply select_tokens_In in H.
    apply dict_mem_In in H. apply dict_mem_get in H as [score Hs].
    exists score. split; [exact Hs|].
    apply dict_get_In in Hs. now apply token_scores_buckets with uniform.
Qed.

End BucketFacts.

(** ** Texts without an occurrence, and the length of the result *)

Section HighlightMore.
Variable is_word : char -> bool.
Variable ci_match : char -> char -> bool.

Local Abbreviation occurrence := (occurrence is_word ci_match).
Local Abbreviation occurs := (occurs is_word ci_match).
Local Abbreviation marked := (marked is_word ci_match).
Local Abbreviation marked_all := (marked_all is_word ci_match).

(** [search_from] finds exactly the occurrences. *)
Lemma search_from_occurrence (token : str) (s : str) :
  forall prev,
  search_from is_word ci_match (pattern token) prev s = true <->
  exists pre occ rest,
    s = pre ++ occ ++ rest /\ occurrence token (last_char prev pre) occ rest.
Proof.
  induction s as [|c s IH]; intro prev; cbn [search_from].
  - destruct (match_here is_word ci_match (pattern token) prev []) as [m|] eqn:E.
    + split; [intros _ | reflexivity].
      apply match_here_occurrence in E as [rest [Hs Hocc]].
      exists [], m, rest. auto.
    + split; [discriminate|].
      intros [pre [occ [rest [Hs Hocc]]]].
      symmetry in Hs. apply app_eq_nil in Hs as [-> Hs].
      assert (match_here is_word ci_match (pattern token) prev [] = Some occ) as E'
        by (apply match_here_occurrence; exists rest; auto).
      rewrite E in E'. discriminate.
  - destruct (match_here is_word ci_match (pattern token) prev (c :: s)) as [m|] eqn:E.
    + split; [intros _ | reflexivity].
      apply match_here_occurrence in E as [rest [Hs Hocc]].
      exists [], m, rest. auto.
    + rewrite IH. split.
      * intros [pre [occ [rest [-> Hocc]]]].
        exists (c :: pre), occ, rest. split; [reflexivity|].
        unfold last_char in *. simpl map. now rewrite last_cons.
      * intros [pre [occ [rest [Hs Hocc]]]].
        destruct pre as [|c' pre].
        -- assert (match_here is_word ci_match (pattern token) prev (c :: s) = Some occ)
             as E' by (apply match_here_occurrence; exists rest; auto).
           rewrite E in E'. discriminate.
        -- simpl in Hs. injection Hs as <- ->.
           exists pre, occ, rest. split; [reflexivity|].
           unfold last_char in *. simpl map in Hocc. now rewrite last_cons in Hocc.
Qed.

Lemma not_found_not_occurs (token text : str) :
  search_from is_word ci_match (pattern token) None text = false ->
  ~ occurs token text.
Proof.
  intros H Hocc. apply search_from_occurrence in Hocc. congruence.
Qed.

(** Where the pattern is not found, the scan copies the text. *)
Lemma sub_from_not_found (items : list re_item) (template : list tpl_item) (s : str) :
  forall prev,
  search_from is_word ci_match items prev s = false ->
  sub_from is_word ci_match items template prev 0 s = s.
Proof.
  induction s as [|c s IH]; intro prev; cbn [search_from sub_from];
    destruct (match_here is_word ci_match items prev _); try discriminate.
  - reflexivity.
  - intro H. now rewrite IH.
Qed.

Lemma highlight_loop_no_occurrence (tokens : list str) (text : str) :
  (forall token, In token tokens -> ~ In backslash token /\ ~ occurs token text) ->
  highlight_loop is_word ci_match tokens text = Ok text.
Proof.
  induction tokens as [|token tokens IH]; intro H; [reflexivity|].
  cbn [highlight_loop]. unfold highlight_token, re_sub.
  destruct (H token (or_introl eq_refl)) as [Hb Hocc].
  rewrite (parse_template_plain _ (replacement_no_backslash token Hb)). cbn [bind].
  rewrite sub_from_not_found.
  - apply IH. intros t Ht. apply H. now right.
  - destruct (search_from is_word ci_match (pattern token) None text) eqn:E;
      [|reflexivity].
    exfalso. apply Hocc. now apply search_from_occurrence in E.
Qed.

(** X8. Tokens that have no occurrence in the text (case-insensitive,
    between word boundaries) leave the text as it is: [highlight_tokens]
    returns the text unchanged.  Tokens without a backslash. *)
Theorem tokens_without_occurrence_change_nothing (text : str) (tokens : list str) :
  (forall token, In token tokens -> ~ In backslash token /\ ~ occurs token text) ->
  highlight_tokens is_word ci_match text tokens = Ok text.
Proof.
  intro H. unfold highlight_tokens. apply highlight_loop_no_occurrence.
  intros token Hin. apply H.
  now apply (Permutation_in _ (sorted_desc_perm len_le tokens)).
Qed.




End HighlightMore.

(** ** When highlight_tokens raises *)

Lemma bind_only_template_error {A B : Type} (r : result A) (k : A -> result B) :
  only_template_error r -> (forall a, only_template_error (k a)) ->
  only_template_error (bind r k).
Proof. destruct r as [a|e]; simpl; auto. Qed.

Lemma tokenize_only_template_error (n : nat) :
  forall s, length s <= n -> only_template_error (tokenize s).
Proof.
  induction n as [|n IH]; intros s Hlen.
  - destruct s; [exact I | simpl in Hlen; lia].
  - destruct s as [|c s]; [exact I|]. simpl in Hlen. cbn [tokenize].
    destruct (N.eqb c backslash).
    + destruct s as [|d s]; [reflexivity|].
      apply bind_only_template_error; [apply IH; simpl in Hlen; lia | intro; exact I].
    + apply bind_only_template_error; [apply IH; lia | intro; exact I].
Qed.

Lemma group_of_name_only_template_error (name : str) :
  only_template_error (group_of_name name).
Proof.
  unfold group_of_name. destruct name; [reflexivity|].
  destruct (forallb _ _); [exact I | reflexivity].
Qed.

Lemma parse_tokens_only_template_error (fuel : nat) :
  forall ts, only_template_error (parse_tokens fuel ts).
Proof.
  induction fuel as [|n IH]; intros [|t ts].
  - exact I.
  - destruct t; reflexivity.
  - exact I.
  - cbn [parse_tokens].
    assert (forall ts' (f : list tpl_item -> list tpl_item),
              only_template_error (items <- parse_tokens n ts' ;; Ok (f items)))
      as Hrec by (intros; apply bind_only_template_error; [apply IH | intro; exact I]).
    destruct t as [c|c]; [apply (Hrec ts (cons (TLit c)))|].
    repeat match goal with
           | |- only_template_error (Raise TemplateError) => reflexivity
           | |- only_template_error (bind (parse_tokens n ?l) (fun items => Ok (?x :: items))) =>
               apply (Hrec l (cons x))
           | |- only_template_error
                  (bind (parse_tokens n ?l) (fun items => Ok (?x :: ?y :: items))) =>
               apply (Hrec l (fun items => x :: y :: items))
           | |- only_template_error (bind (group_of_name _) _) =>
               apply bind_only_template_error;
               [apply group_of_name_only_template_error | intro]
           | |- only_template_error (if ?b then _ else _) => destruct b
           | |- only_template_error (match ?x with _ => _ end) => destruct x
           end.
Qed.

Lemma parse_template_only_template_error (repl : str) :
  only_template_error (parse_template repl).
Proof.
  unfold parse_template. apply bind_only_template_error.
  - now apply tokenize_only_template_error with (n := length repl).
  - intro ts. apply parse_tokens_only_template_error.
Qed.

Section HighlightErrors.
Variable is_word : char -> bool.
Variable ci_match : char -> char -> bool.

(** The loop raises when the template of one of its tokens does not
    compile, whatever the text is. *)
Lemma highlight_loop_raises (tokens : list str) :
  forall text,
  match highlight_loop is_word ci_match tokens text with
  | Ok _ => forall token, In token tokens ->
              exists template, parse_template (replacement token) = Ok template
  | Raise e => e = TemplateError /\
               exists token, In token tokens /\
                 parse_template (replacement token) = Raise TemplateError
  end.
Proof.
  induction tokens as [|token tokens IH]; intro text; cbn [highlight_loop].
  - intros token [].
  - unfold highlight_token, re_sub.
    pose proof (parse_template_only_template_error (replacement token)) as Hp.
    destruct (parse_template (replacement token)) as [template|e] eqn:E; cbn [bind].
    + specialize (IH (sub_from is_word ci_match (pattern token) template None 0 text)).
      destruct (highlight_loop is_word ci_match tokens _) as [out|e].
      * intros t [<-|Ht]; [eauto | now apply IH].
      * destruct IH as [-> [t [Ht Hpt]]]. split; [reflexivity|].
        exists t. split; [now right | exact Hpt].
    + simpl in Hp. subst e. split; [reflexivity|].
      exists token. split; [now left | exact E].
Qed.

(** X10. [highlight_tokens] raises exactly when the replacement
    template of one of the tokens does not compile, and then it raises
    the error of the template: whether it raises does not depend on the
    text, and a token raises even where it has no occurrence. *)
Theorem highlight_raises_iff_a_template_is_bad (text : str) (tokens : list str) :
  (forall e, highlight_tokens is_word ci_match text tokens = Raise e ->
             e = TemplateError) /\
  ((exists e, highlight_tokens is_word ci_match text tokens = Raise e) <->
   exists token, In token tokens /\
     parse_template (replacement token) = Raise TemplateError).
Proof.
  unfold highlight_tokens.
  pose proof (highlight_loop_raises (sorted_desc len_le tokens) text) as H.
  pose proof (sorted_desc_perm len_le tokens) as Hp.
  destruct (highlight_loop is_word ci_match (sorted_desc len_le tokens) text)
    as [out|e].
  - split; [discriminate|]. split.
    + intros [e He]. discriminate.
    + intros [token [Hin Hbad]].
      destruct (H token (Permutation_in _ (Permutation_sym Hp) Hin)) as [tpl Htpl].
      congruence.
  - destruct H as [-> [token [Hin Hbad]]]. split.
    + intros e He. now injection He as <-.
    + split; [|eauto]. intros _. exists token.
      split; [now apply (Permutation_in _ Hp) | exact Hbad].
Qed.

End HighlightErrors.

(** ** The record of analyze_tweet *)

Section AnalysisRecord.
Variable lower : str -> str.
Variable uniform : nat -> Q -> Q -> Q.
Variable is_word : char -> bool.
Variable ci_match : char -> char -> bool.

(** X11. For a supported language, the record of [analyze_tweet] holds
    the text and the language as they were given; its highlighted text
    is [highlight_tokens] of the given text with the record's own
    tokens, which marks the tokens one after the other from the longest
    on, and it is at least as long as the text. *)
Theorem analysis_record_fields (text code : str) :
  supported code ->
  exists r,
    analyze_tweet lower uniform is_word ci_match text code = Ok r /\
    original_text r = text /\
    language r = code /\
    highlight_tokens is_word ci_match text (important_tokens_found r)
      = Ok (highlighted_text r) /\
    marked_all is_word ci_match
      (sorted_desc len_le (important_tokens_found r)) text (highlighted_text r) /\
    length text <= length (highlighted_text r).
Proof.
  intro H. destruct (subscript_supported code H) as [lang [E Hlang]].
  unfold analyze_tweet, get_important_tokens. rewrite E. cbn [bind].
  set (tokens := select_tokens _ default_threshold).
  assert (forall token, In token tokens -> ~ In backslash token) as Hplain
    by (intros token Hin; now apply returned_tokens_no_backslash in Hin).
  unfold highlight_tokens.
  destruct (highlight_loop_marked is_word ci_match (sorted_desc len_le tokens))
    with (text := text) as [out [Eh Hm]].
  { intros token Hin. apply Hplain.
    now apply (Permutation_in _ (sorted_desc_perm len_le tokens)). }
  rewrite Eh. cbn [bind]. eexists. split; [reflexivity|]. simpl.
  repeat split; try assumption.
  now apply marked_all_length in Hm.
Qed.

End AnalysisRecord.

(** ** The further properties on concrete inputs *)

Lemma forallb_not_contains (text : str) (l : list str) :
  forallb (fun k => negb (contains k text)) l = true ->
  forall k, In k l -> contains k text = false.
Proof.
  intros H k Hk. rewrite forallb_forall in H.
  specialize (H k Hk). now apply negb_true_iff in H.
Qed.

Lemma returned_tokens_descend_on_crowded_text :
  exists scored,
    get_important_tokens lower_ascii uniform_seq crowded_text (py "en") default_threshold
      = Ok (keys scored) /\
    incl scored (fst (token_scores uniform_seq (lower_ascii crowded_text) en_tokens)) /\
    scores_descend scored.
Proof.
  apply (returned_tokens_descend_in_score lower_ascii uniform_seq crowded_text (py "en")
           default_threshold en_tokens).
  reflexivity.
Defined.

Lemma greater_threshold_extends_on_crowded_text :
  exists tokens1 tokens2,
    get_important_tokens lower_ascii uniform_seq crowded_text (py "en") (1 # 2)
      = Ok tokens1 /\
    get_important_tokens lower_ascii uniform_seq crowded_text (py "en") default_threshold
      = Ok tokens2 /\
    tokens1 = firstn (length tokens1) tokens2.
Proof.
  apply (greater_threshold_extends_selection lower_ascii uniform_seq crowded_text (py "en")
           (1 # 2) default_threshold en_tokens).
  - reflexivity.
  - unfold default_threshold. lra.
Defined.

Lemma zero_threshold_returns_one_token :
  exists token,
    get_important_tokens lower_ascii uniform_seq crowded_text (py "en") 0 = Ok [token].
Proof.
  apply (nonpositive_threshold_returns_one_token lower_ascii uniform_seq
           uniform_seq_in_range crowded_text (py "en") 0 en_tokens).
  - reflexivity.
  - lra.
  - vm_compute. discriminate.
Defined.

Lemma keywords_scored_in_women_text :
  (forall token,
      In token (keys (fst (token_scores uniform_seq (lower_ascii (py "Women")) en_tokens)))
      <-> In token (keywords en_tokens) /\
          contains token (lower_ascii (py "Women")) = true) /\
  exists tokens,
    get_important_tokens lower_ascii uniform_seq (py "Women") (py "en") default_threshold
      = Ok tokens /\
    forall token, In token tokens ->
      In token (keywords en_tokens) /\ contains token (lower_ascii (py "Women")) = true.
Proof.
  apply (keyword_hit_scores_keywords_in_text lower_ascii uniform_seq (py "Women") (py "en")
           (py "men") default_threshold en_tokens).
  - reflexivity.
  - simpl. tauto.
  - reflexivity.
Defined.

Lemma first_five_words_scored_in_plain_text :
  (forall token,
      In token (keys (fst (token_scores uniform_seq
                             (lower_ascii (py "xyzzy plugh quux")) en_tokens))) <->
      exists word, In word (firstn 5 (split (lower_ascii (py "xyzzy plugh quux")))) /\
                   token = clean word /\ 2 < length token) /\
  exists tokens,
    get_important_tokens lower_ascii uniform_seq (py "xyzzy plugh quux") (py "en")
      default_threshold = Ok tokens /\
    length tokens <= 5 /\
    forall token, In token tokens ->
      exists word, In word (firstn 5 (split (lower_ascii (py "xyzzy plugh quux")))) /\
                   token = clean word /\ 2 < length token.
Proof.
  apply (no_keyword_scores_first_five_words lower_ascii uniform_seq
           (py "xyzzy plugh quux") (py "en") default_threshold en_tokens).
  - reflexivity.
  - apply forallb_not_contains. vm_compute. reflexivity.
Defined.

Lemma empty_result_iff_on_short_words :
  get_important_tokens lower_ascii uniform_seq (py "a b, c!") (py "en") default_threshold
    = Ok [] <->
  (forall k, In k (keywords en_tokens) -> contains k (lower_ascii (py "a b, c!")) = false) /\
  (forall word, In word (firstn 5 (split (lower_ascii (py "a b, c!")))) ->
                length (clean word) <= 2).
Proof.
  apply (empty_result_iff_nothing_to_score lower_ascii uniform_seq (py "a b, c!") (py "en")
           default_threshold en_tokens).
  reflexivity.
Defined.

Lemma scores_lie_in_buckets_on_kitchen_text :
  (forall token score,
      In (token, score) (fst (token_scores uniform_seq (lower_ascii kitchen_text) en_tokens)) ->
      in_bucket (lower_ascii kitchen_text) en_tokens token score) /\
  exists tokens,
    get_important_tokens lower_ascii uniform_seq kitchen_text (py "en") default_threshold
      = Ok tokens /\
    forall token, In token tokens ->
      exists score,
        dict_get token (fst (token_scores uniform_seq (lower_ascii kitchen_text) en_tokens))
          = Some score /\
        in_bucket (lower_ascii kitchen_text) en_tokens token score.
Proof.
  apply (scores_lie_in_their_buckets lower_ascii uniform_seq uniform_seq_in_range
           kitchen_text (py "en") default_threshold en_tokens).
  reflexivity.
Defined.

Lemma token_without_occurrence_in_text :
  highlight_tokens is_word_ascii ci_match_ascii (py "She works in kitchens")
    [py "kitchen"; py "he"] = Ok (py "She works in kitchens").
Proof.
  apply (tokens_without_occurrence_change_nothing is_word_ascii ci_match_ascii
           (py "She works in kitchens") [py "kitchen"; py "he"]).
  intros token [<-|[<-|[]]]; (split; [|apply not_found_not_occurs; reflexivity]);
    intro H; simpl in H; unfold backslash in H;
    repeat (destruct H as [H|H]; [discriminate H|]); exact H.
Defined.


Lemma analysis_record_of_kitchen_text :
  supported (py "en") /\
  exists r,
    analyze_tweet lower_ascii uniform_seq is_word_ascii ci_match_ascii
      kitchen_text (py "en") = Ok r /\
    original_text r = kitchen_text /\
    language r = py "en" /\
    highlight_tokens is_word_ascii ci_match_ascii kitchen_text (important_tokens_found r)
      = Ok (highlighted_text r) /\
    marked_all is_word_ascii ci_match_ascii
      (sorted_desc len_le (important_tokens_found r)) kitchen_text (highlighted_text r) /\
    length kitchen_text <= length (highlighted_text r).
Proof.
  assert (supported (py "en")) as H by (left; reflexivity).
  split; [exact H|].
  apply (analysis_record_fields lower_ascii uniform_seq is_word_ascii ci_match_ascii
           kitchen_text (py "en") H).
Defined.

(** ** The order of the token list *)

(** Two tokens of different length go to the same places of a list,
    whichever is inserted first. *)
Lemma insert_desc_len_comm (x y : str) (l : list str) :
  length y < length x ->
  insert_desc len_le x (insert_desc len_le y l)
  = insert_desc len_le y (insert_desc len_le x l).
Proof.
  intro H.
  assert (len_le y x = true) as Hyx by (apply Nat.leb_le; lia).
  assert (len_le x y = false) as Hxy by (apply Nat.leb_gt; lia).
  induction l as [|z l IH]; cbn [insert_desc].
  - now rewrite Hyx, Hxy.
  - destruct (len_le z y) eqn:Ezy.
    + assert (len_le z x = true) as Ezx.
      { unfold len_le in *. apply Nat.leb_le. apply Nat.leb_le in Ezy. lia. }
      repeat (cbn [insert_desc]; rewrite ?Hyx, ?Hxy, ?Ezx, ?Ezy). reflexivity.
    + destruct (len_le z x) eqn:Ezx;
        repeat (cbn [insert_desc]; rewrite ?Hyx, ?Hxy, ?Ezx, ?Ezy);
        [reflexivity | now rewrite IH].
Qed.

Lemma sorted_desc_len_perm (l l' : list str) :
  Permutation l l' -> NoDup (map (@length char) l) ->
  sorted_desc len_le l = sorted_desc len_le l'.
Proof.
  induction 1 as [| x l l' Hp IH | x y l | l l' l'' Hp1 IH1 Hp2 IH2]; intro Hnd.
  - reflexivity.
  - simpl. rewrite IH; [reflexivity | now inversion Hnd].
  - simpl. inversion Hnd as [|? ? Hy _]; subst.
    assert (length x <> length y) as Hne by (intro E; apply Hy; left; now symmetry).
    destruct (Nat.lt_ge_cases (length x) (length y)) as [Hlt|Hge].
    + now apply insert_desc_len_comm.
    + symmetry. apply insert_desc_len_comm. lia.
  - rewrite IH1 by assumption. apply IH2.
    apply (Permutation_NoDup (Permutation_map (@length char) Hp1)). exact Hnd.
Qed.

Section TokenOrder.
Variable is_word : char -> bool.
Variable ci_match : char -> char -> bool.

(** X12. For tokens of pairwise different lengths the order of the
    token list does not matter: [highlight_tokens] gives the same
    result (or raises alike) for every rearrangement of the list,
    because it works through the tokens from the longest on. *)
Theorem token_order_is_irrelevant (text : str) (tokens tokens' : list str) :
  Permutation tokens tokens' ->
  NoDup (map (@length char) tokens) ->
  highlight_tokens is_word ci_match text tokens
  = highlight_tokens is_word ci_match text tokens'.
Proof.
  intros Hp Hnd. unfold highlight_tokens.
  now rewrite (sorted_desc_len_perm tokens tokens' Hp Hnd).
Qed.

End TokenOrder.

Lemma token_order_is_irrelevant_in_kitchen_text :
  highlight_tokens is_word_ascii ci_match_ascii (py "In the Kitchen")
    [py "in"; py "kitchen"; py "the"]
  = highlight_tokens is_word_ascii ci_match_ascii (py "In the Kitchen")
    [py "kitchen"; py "the"; py "in"].
Proof.
  apply (token_order_is_irrelevant is_word_ascii ci_match_ascii (py "In the Kitchen")
           [py "in"; py "kitchen"; py "the"] [py "kitchen"; py "the"; py "in"]).
  - apply Permutation_cons_app with (l1 := [py "kitchen"; py "the"]) (l2 := []).
    reflexivity.
  - simpl. repeat constructor; simpl; intros H;
      repeat (destruct H as [H|H]; [discriminate H|]); exact H.
Defined.
